(** * Lumber cut planner: the packing engine and its two strategies

    A shallow embedding of the allocation code of [lumber-cuts.js]
    ([sortDesc], [sortCutsDesc], [sumList], [sumCutList], [solveCuts],
    [naiveSolve], [groupedSolve]) and the properties its specification states
    about it.  The source comes in two revisions that differ, for this code,
    in [groupedSolve] only: the later one merges the bins of the parts before
    it places the ungrouped cuts, the earlier one does not.

    Lengths are JavaScript numbers in the source.  They are taken here in an
    exact unit (integers, [Z]): every operation the engine performs on them is
    an addition, a subtraction or a comparison, and on whole lengths the
    source computes them exactly.  On lengths with a fraction the source
    rounds every sum; the module [Dbl] has the engine with that arithmetic. *)

From stdpp Require Import gmap strings list sorting.
From Stdlib Require Import Floats.PrimFloat.
From Equations Require Import Equations.

Local Open Scope Z_scope.

(** ** Data model *)

(** [class Cut { constructor(value, partName) }] *)
Record Cut := mkCut { value : Z; partName : string }.

#[global] Instance Cut_eq_dec : EqDecision Cut.
Proof. solve_decision. Defined.

(** A bin is an array of cuts: the cuts laid on one piece of lumber. *)
Abbreviation Bin := (list Cut).

(** ** [Array.prototype.sort] and [Array.prototype.reverse]

    [sort] is stable and ascending for the comparator it is given; a
    comparator result of [NaN] (here [None]) counts as [+0].  A stable
    insertion sort is the model: for a consistent comparator the result of a
    stable sort does not depend on the algorithm. *)
Section js_sort.
Context {A : Type} (comparefn : A → A → option Z).

Definition sortCompare (x y : A) : Z := default 0 (comparefn x y).

Fixpoint sort_insert (x : A) (l : list A) : list A :=
  match l with
  | [] => [x]
  | y :: l' =>
      if decide (sortCompare x y ≤ 0) then x :: y :: l'
      else y :: sort_insert x l'
  end.

Definition js_sort (l : list A) : list A := foldr sort_insert [] l.

End js_sort.

(** [function compareNumbers(a,b) { return a-b; }] applied to two [Cut]
    objects: the subtraction of two objects is [NaN]. *)
Definition compareNumbers_obj (a b : Cut) : option Z := None.

(** [function sortDesc(myList) { return myList.sort(compareNumbers).reverse(); }]
    as [naiveSolve] calls it, on a list of [Cut] objects. *)
Definition sortDesc (myList : list Cut) : list Cut :=
  reverse (js_sort compareNumbers_obj myList).

(** [function sortCutsDesc(cuts) { return cuts.sort((a,b) => a.value - b.value).reverse(); }] *)
Definition sortCutsDesc (cuts : list Cut) : list Cut :=
  reverse (js_sort (λ a b, Some (value a - value b)) cuts).

(** ** Sums and remainders *)

(** [myList == [] ? 0 : myList.reduce((a,b) => a+b, 0)]: the comparison of an
    array with a fresh array literal is always false, so the [reduce] is what
    runs; on the empty list it gives its initial value [0]. *)
Definition sumList (myList : list Z) : Z := foldl (λ a b, a + b) 0 myList.

Definition sumCutList (cutList : Bin) : Z := sumList (value <$> cutList).

(** The closure [getBinRemainder] of [solveCuts] and of [groupedSolve]. *)
Definition getBinRemainder (lumberLen : Z) (bin : Bin) : Z :=
  lumberLen - sumCutList bin.

(** ** [solveCuts]: the packing engine *)

(** [Math.min.apply(null, remainders)] on a list known to be non-empty. *)
Definition minOf (r : Z) (rs : list Z) : Z := foldl Z.min r rs.

(** One turn of the loop [for (const nextCut of cuts)].  The bins are
    distinct arrays here (see [Heap] below for the arrays as objects). *)
Definition placeCut (lumberLen : Z) (bins : list Bin) (nextCut : Cut) : list Bin :=
  let remainders :=
    filter (λ val, value nextCut ≤ val) (getBinRemainder lumberLen <$> bins) in
  match remainders with
  | [] => bins ++ [[nextCut]]
  | r :: rs =>
      let minUsableRemainder := minOf r rs in
      (λ bin, if decide (getBinRemainder lumberLen bin = minUsableRemainder)
              then bin ++ [nextCut] else bin) <$> bins
  end.

(** [function solveCuts(cuts, lumberLen, bins)], on a list of [Cut]s;
    [bins = None] is the omitted argument ([bins ?? [[]]]). *)
Definition solveCuts (cuts : list Cut) (lumberLen : Z) (bins : option (list Bin))
  : list Bin :=
  foldl (placeCut lumberLen) (default [[]] bins) (sortCutsDesc cuts).

(** ** The validated inputs

    [inputs.cuts] is an object from part name to the list of padded cut
    lengths, with the key ["false"] for the cuts that belong to no part.  It
    is kept as the list of its entries in the order [Object.keys] and
    [for ... in] enumerate them; an object holds each key once.  Of the other
    fields only [effectiveLumberLen] is read by the solvers ([lumberLen],
    [cutWidth], [lumberMargin] and [colors] serve the display). *)
Record Inputs := mkInputs {
  effectiveLumberLen : Z;
  cuts : list (string * list Z)
}.

(** [obj[key]]: [None] is [undefined]. *)
Fixpoint getProp (obj : list (string * list Z)) (key : string) : option (list Z) :=
  match obj with
  | [] => None
  | (k, v) :: obj' => if decide (k = key) then Some v else getProp obj' key
  end.

(** [inputs.cuts[key].map((val) => new Cut(val, key))] *)
Definition cutsOfPart (key : string) (vals : list Z) : list Cut :=
  (λ val, mkCut val key) <$> vals.

(** ** [naiveSolve]: one flat list

    [Object.keys(inputs.cuts)] mapped to [inputs.cuts[key].map(...)] goes
    through the entries in order.  [values.reduce((a,b) => a.concat(b))] has
    no initial value: it throws a [TypeError] on an empty array ([None]). *)
Definition naiveSolve (inputs : Inputs) : option (list Bin) :=
  let values := (λ entry, cutsOfPart entry.1 entry.2) <$> cuts inputs in
  match values with
  | [] => None
  | a :: rest =>
      let flattenedVals := sortDesc (foldl (λ a b, a ++ b) a rest) in
      Some (solveCuts flattenedVals (effectiveLumberLen inputs) None)
  end.

(** ** [groupedSolve]: part by part, then merge, then the rest *)

(** The loop over the named parts: [bins = bins.concat(subSoln)]. *)
Definition solveParts (lumberLen : Z) (cuts : list (string * list Z)) : list Bin :=
  foldl (λ bins entry,
           if decide (entry.1 = "false") then bins
           else bins ++ solveCuts (cutsOfPart entry.1 entry.2) lumberLen None)
        [] cuts.

(** [bins.sort((a,b) => sumCutList(a) - sumCutList(b)).reverse()] *)
Definition sortBinsDesc (bins : list Bin) : list Bin :=
  reverse (js_sort (λ a b, Some (sumCutList a - sumCutList b)) bins).

(** The test of the inner loop: [getBinRemainder(bin2) >= (lumberLen - getBinRemainder(bin))]. *)
Definition fitsInto (lumberLen : Z) (bin bin2 : Bin) : Prop :=
  lumberLen - getBinRemainder lumberLen bin ≤ getBinRemainder lumberLen bin2.

#[global] Instance fitsInto_dec lumberLen bin bin2 : Decision (fitsInto lumberLen bin bin2).
Proof. unfold fitsInto. apply _. Defined.

(** The inner loop [for (var j=i+1; j<bins.length; j++)], from [j] on, with
    [bin = bins[i]] read before the loop: at the first [bins[j]] that has room
    for [bin], [bins[i] = bin.concat(bin2)], [bins.splice(j,1)], and the loop
    is left. *)
Equations? mergeScan (lumberLen : Z) (bin : Bin) (i : nat) (bins : list Bin) (j : nat)
  : list Bin by wf (length bins - j)%nat lt :=
mergeScan lumberLen bin i bins j with decide (j < length bins)%nat := {
  | right _ := bins
  | left _ with decide (fitsInto lumberLen bin (bins !!! j)) := {
      | left _ := delete j (<[i := bin ++ bins !!! j]> bins)
      | right _ := mergeScan lumberLen bin i bins (S j) } }.
Proof. lia. Qed.

(** The outer loop [for (var i=0; i<bins.length-1; i++)], from [i] on. *)
Equations? mergeLoop (lumberLen : Z) (bins : list Bin) (i : nat)
  : list Bin by wf (length bins - i)%nat lt :=
mergeLoop lumberLen bins i with decide (Z.of_nat i < Z.of_nat (length bins) - 1) := {
  | right _ := bins
  | left _ := mergeLoop lumberLen (mergeScan lumberLen (bins !!! i) i bins (S i)) (S i) }.
Proof.
  assert (∀ bin k bs j, (length (mergeScan lumberLen bin k bs j) ≤ length bs)%nat) as Hlen.
  { intros bin k bs j. funelim (mergeScan lumberLen bin k bs j); [lia| |eauto].
    rewrite length_delete, length_insert; [lia|].
    apply lookup_lt_is_Some. by rewrite length_insert. }
  specialize (Hlen (bins !!! i) i bins (S i)). lia.
Qed.

(** The merge phase of [groupedSolve]: sort, then the two loops. *)
Definition mergeBins (lumberLen : Z) (bins : list Bin) : list Bin :=
  mergeLoop lumberLen (sortBinsDesc bins) 0.

(** [function groupedSolve(inputs)].  The function has no [return]: its
    result is the bin list it hands to [displaySolution].  [None] is the
    [TypeError] of [inputs.cuts["false"].map] when the key is absent. *)
Definition groupedSolve (inputs : Inputs) : option (list Bin) :=
  let lumberLen := effectiveLumberLen inputs in
  let bins := solveParts lumberLen (cuts inputs) in
  let bins := mergeBins lumberLen bins in
  match getProp (cuts inputs) "false" with
  | None => None
  | Some misc => Some (solveCuts (cutsOfPart "false" misc) lumberLen (Some bins))
  end.

(** The earlier revision of [groupedSolve] ([construction/lumber-cuts.js]),
    where the merge is still a [TODO] comment. *)
Definition groupedSolve_v1 (inputs : Inputs) : option (list Bin) :=
  let lumberLen := effectiveLumberLen inputs in
  let bins := solveParts lumberLen (cuts inputs) in
  match getProp (cuts inputs) "false" with
  | None => None
  | Some misc => Some (solveCuts (cutsOfPart "false" misc) lumberLen (Some bins))
  end.

(** ** [solveCuts] as JavaScript runs it: untyped elements, the caller's array

    The array handed to [solveCuts] may hold anything.  These kinds of
    elements are told apart: an instance of [Cut] that holds a number, an
    instance of [Cut] that holds no number ([NaN] or [undefined]), a primitive
    value (a plain number, which is what a cut was before the class [Cut]
    existed, a string, a boolean), [null] and [undefined].  [sort] and
    [reverse] work in place, so the array the caller passed is the array that
    ends up sorted. *)
Module Dyn.

Inductive primitive :=
| PNumber (z : Z)
| PString (s : string)
| PBoolean (b : bool).

Inductive jsval :=
| VCut (c : Cut)
| VCutNaN (partName : string)
| VPrimitive (p : primitive)
| VNull
| VUndefined.

#[global] Instance primitive_eq_dec : EqDecision primitive.
Proof. solve_decision. Defined.

#[global] Instance jsval_eq_dec : EqDecision jsval.
Proof. solve_decision. Defined.

(** An instance of [Cut], as the bins hold it: with a number, or with
    [NaN] or [undefined] for its [value]. *)
Inductive cut :=
| Numeric (c : Cut)
| NotANumber (partName : string).

#[global] Instance cut_eq_dec : EqDecision cut.
Proof. solve_decision. Defined.

(** [v instanceof Cut], with the instance. *)
Definition asCut (v : jsval) : option cut :=
  match v with
  | VCut c => Some (Numeric c)
  | VCutNaN partName => Some (NotANumber partName)
  | _ => None
  end.

(** [c.value] as a number: [None] is [NaN] (arithmetic turns [undefined]
    into it). *)
Definition valueOf (c : cut) : option Z :=
  match c with
  | Numeric c => Some (value c)
  | NotANumber _ => None
  end.

(** [v.value] can be read: a property of [null] or of [undefined] cannot, the
    attempt throws a [TypeError]. *)
Definition hasProperties (v : jsval) : bool :=
  match v with
  | VNull | VUndefined => false
  | _ => true
  end.

(** [(a,b) => a.value - b.value].  [None]: the [TypeError] of reading
    [value] of [null].  [Some None]: [NaN], as with a [value] that is no
    number, or with a primitive, whose property [value] is [undefined]. *)
Definition valueDiff (a b : jsval) : option (option Z) :=
  if hasProperties a && hasProperties b
  then Some (match a, b with
             | VCut a, VCut b => Some (value a - value b)
             | _, _ => None
             end)
  else None.

(** [sort] with a comparator that may throw: the insertion sort of [js_sort],
    given up at the first call that throws ([None]).  A sort of two or more
    elements calls the comparator on each of them at least once, whatever the
    algorithm. *)
Section sort_throwing.
Context {A : Type} (comparefn : A → A → option (option Z)).

Fixpoint sort_insert_throwing (x : A) (l : list A) : option (list A) :=
  match l with
  | [] => Some [x]
  | y :: l' =>
      match comparefn x y with
      | None => None
      | Some d =>
          if decide (default 0 d ≤ 0) then Some (x :: y :: l')
          else (λ rest, y :: rest) <$> sort_insert_throwing x l'
      end
  end.

Definition js_sort_throwing (l : list A) : option (list A) :=
  foldr (λ x sorted, sorted ≫= sort_insert_throwing x) (Some []) l.

End sort_throwing.

(** [cuts.sort((a,b) => a.value - b.value)]: the elements that are
    [undefined] go to the end without a call of the comparator, the others
    are sorted with it. *)
Definition sortCuts (cuts : list jsval) : option (list jsval) :=
  (λ sorted, sorted ++ filter (λ v, v = VUndefined) cuts)
    <$> js_sort_throwing valueDiff (filter (λ v, v ≠ VUndefined) cuts).

(** [function sortCutsDesc(cuts)].  On a list that mixes the kinds the
    comparator is not consistent and the order [sort] leaves is the engine's
    choice; what is proved of such lists uses only that the result is a
    rearrangement of the list. *)
Definition sortCutsDesc (cuts : list jsval) : option (list jsval) :=
  reverse <$> sortCuts cuts.

(** [sumList] and [sumCutList] on values that may be no number: a sum with
    [NaN] or with [undefined] is [NaN]. *)
Definition sumList (myList : list (option Z)) : option Z :=
  foldl (λ a b, match a, b with
                | Some a, Some b => Some (a + b)
                | _, _ => None
                end) (Some 0) myList.

Definition sumCutList (cutList : list cut) : option Z := sumList (valueOf <$> cutList).

Definition getBinRemainder (lumberLen : Z) (bin : list cut) : option Z :=
  (λ sum, lumberLen - sum) <$> sumCutList bin.

(** One turn of the loop, after the check of the class.  A comparison with
    [NaN] is false: [val >= nextCut.value] keeps the remainders that are
    numbers when the cut holds a number no larger, and
    [getBinRemainder(bins[i]) == minUsableRemainder] is false for a bin whose
    sum is [NaN]. *)
Definition placeCut (lumberLen : Z) (bins : list (list cut)) (nextCut : cut)
  : list (list cut) :=
  let remainders :=
    omap (λ val, match val, valueOf nextCut with
                 | Some r, Some v => if decide (v ≤ r) then Some r else None
                 | _, _ => None
                 end)
         (getBinRemainder lumberLen <$> bins) in
  match remainders with
  | [] => bins ++ [[nextCut]]
  | r :: rs =>
      let minUsableRemainder := minOf r rs in
      (λ bin, if decide (getBinRemainder lumberLen bin = Some minUsableRemainder)
              then bin ++ [nextCut] else bin) <$> bins
  end.

(** How a call ends: it returns the bin list, it throws [new Error(message)],
    or it throws the [TypeError] of the comparator. *)
Inductive completion :=
| Return (bins : list (list cut))
| Throw (message : string)
| ThrowTypeError.

(** The loop [for (const nextCut of cuts)] with its check
    [if (!(nextCut instanceof Cut)) throw new Error("Expected instance of Cut")]. *)
Fixpoint placeAll (lumberLen : Z) (bins : list (list cut)) (cuts : list jsval)
  : completion :=
  match cuts with
  | [] => Return bins
  | v :: rest =>
      match asCut v with
      | Some nextCut => placeAll lumberLen (placeCut lumberLen bins nextCut) rest
      | None => Throw "Expected instance of Cut"
      end
  end.

(** What a call leaves behind: the content of the caller's [cuts] array when
    the call ends, and how the call ends. *)
Record outcome := mkOutcome {
  cutsAfter : list jsval;
  result : completion
}.

(** Bins of cuts with numbers, as the engine holds them here. *)
Definition ofBins (bins : list Bin) : list (list cut) :=
  (λ bin : Bin, Numeric <$> bin) <$> bins.

(** [function solveCuts(cuts, lumberLen, bins)].  When the comparator throws,
    [sort] has not written to the array yet (it sorts the values it has
    collected and stores them when done). *)
Definition solveCuts (cuts : list jsval) (lumberLen : Z) (bins : option (list Bin))
  : outcome :=
  match sortCutsDesc cuts with
  | None => mkOutcome cuts ThrowTypeError
  | Some sorted =>
      mkOutcome sorted (placeAll lumberLen (ofBins (default [[]] bins)) sorted)
  end.





End Dyn.

(** ** [solveCuts] on arrays as objects

    A bin is an array and the bin list is an array of arrays: [push] changes
    the object it is called on, and whoever holds a reference to that object
    sees the change.  The store maps the references of the bin arrays and of
    the bin lists to their contents. *)
Module Heap.

Abbreviation ref := nat.

Record heap := mkHeap {
  binArrays : gmap ref Bin;
  binLists : gmap ref (list ref)
}.

Definition readBin (h : heap) (b : ref) : Bin := default [] (binArrays h !! b).
Definition readList (h : heap) (l : ref) : list ref := default [] (binLists h !! l).

(** The bin list [l] of the store [h], read as a value. *)
Definition contents (h : heap) (l : ref) : list Bin := readBin h <$> readList h l.

(** [bin.push(cut)] on the bin array [b]. *)
Definition push (h : heap) (b : ref) (c : Cut) : heap :=
  mkHeap (<[b := readBin h b ++ [c]]> (binArrays h)) (binLists h).

(** [bins.push(bin)] on the bin list [l]. *)
Definition pushBin (h : heap) (l : ref) (b : ref) : heap :=
  mkHeap (binArrays h) (<[l := readList h l ++ [b]]> (binLists h)).

(** An array literal: a new object. *)
Definition newBin (h : heap) (content : Bin) : ref * heap :=
  let b := fresh (dom (binArrays h)) in
  (b, mkHeap (<[b := content]> (binArrays h)) (binLists h)).

Definition newList (h : heap) (content : list ref) : ref * heap :=
  let l := fresh (dom (binLists h)) in
  (l, mkHeap (binArrays h) (<[l := content]> (binLists h))).

Definition getBinRemainder (h : heap) (lumberLen : Z) (b : ref) : Z :=
  lumberLen - sumCutList (readBin h b).

(** [for (const i in bins) { if (getBinRemainder(bins[i]) == minUsableRemainder) bins[i].push(nextCut) }]:
    each remainder is read from the store as the earlier pushes left it. *)
Fixpoint pushTied (lumberLen minUsableRemainder : Z) (nextCut : Cut)
    (h : heap) (bins : list ref) : heap :=
  match bins with
  | [] => h
  | b :: rest =>
      if decide (getBinRemainder h lumberLen b = minUsableRemainder)
      then pushTied lumberLen minUsableRemainder nextCut (push h b nextCut) rest
      else pushTied lumberLen minUsableRemainder nextCut h rest
  end.

Definition placeCut (lumberLen : Z) (l : ref) (h : heap) (nextCut : Cut) : heap :=
  let bins := readList h l in
  let remainders :=
    filter (λ val, value nextCut ≤ val) (getBinRemainder h lumberLen <$> bins) in
  match remainders with
  | [] => let '(b, h') := newBin h [nextCut] in pushBin h' l b
  | r :: rs => pushTied lumberLen (minOf r rs) nextCut h bins
  end.

(** [solveCuts(cuts, lumberLen, bins)]: [bins] is a reference to the
    caller's bin list, or [None] when the argument is omitted; the result is
    the reference returned and the store after the call. *)
Definition solveCuts (cuts : list Cut) (lumberLen : Z) (bins : option ref) (h : heap)
  : ref * heap :=
  let '(l, h0) :=
    match bins with
    | Some l => (l, h)
    | None => let '(b, h1) := newBin h [] in newList h1 [b]
    end in
  (l, foldl (placeCut lumberLen l) h0 (sortCutsDesc cuts)).

(** The bin list [l] is an allocated list of allocated, pairwise distinct bin
    arrays. *)
Definition wellFormed (h : heap) (l : ref) : Prop :=
  is_Some (binLists h !! l) ∧
  NoDup (readList h l) ∧
  Forall (λ b, is_Some (binArrays h !! b)) (readList h l).

End Heap.

(** ** The engine on doubles

    The lengths of the source are JavaScript numbers, IEEE 754 doubles: a sum
    or a difference is rounded to the nearest double.  Where the lengths are
    whole the sums are exact and the definitions above say what the code
    computes; with fractions they need not be.  This module is the engine
    again with the arithmetic of the source: [+], [-], [>=], [==] on doubles
    (the kernel's binary64 numbers). *)
Module Dbl.

(** [class Cut { constructor(value, partName) }] *)
Record Cut := mkCut { value : float; partName : string }.

Abbreviation Bin := (list Cut).

(** How [sort] reads the number its comparator returns: negative, positive,
    zero, or [NaN] ([None], which counts as [+0]). *)
Definition sign (d : float) : option Z :=
  if (d <? 0)%float then Some (-1)
  else if (0 <? d)%float then Some 1
  else if (d =? 0)%float then Some 0
  else None.

(** [function sortCutsDesc(cuts) { return cuts.sort((a,b) => a.value - b.value).reverse(); }] *)
Definition sortCutsDesc (cuts : list Cut) : list Cut :=
  reverse (js_sort (λ a b, sign (value a - value b)%float) cuts).

(** [myList == [] ? 0 : myList.reduce((a,b) => a+b, 0)]: the [reduce] is what
    runs; its additions go from the left, each one rounded. *)
Definition sumList (myList : list float) : float :=
  foldl (λ a b, (a + b)%float) 0%float myList.

Definition sumCutList (cutList : Bin) : float := sumList (value <$> cutList).

(** The closure [getBinRemainder] of [solveCuts] and of [groupedSolve]. *)
Definition getBinRemainder (lumberLen : float) (bin : Bin) : float :=
  (lumberLen - sumCutList bin)%float.

(** [Math.min.apply(null, remainders)] on a non-empty list without [NaN]
    (a [NaN] does not pass the filter before it).  Its result is only
    compared with [==], for which the two zeros are the same. *)
Definition minOf (r : float) (rs : list float) : float :=
  foldl (λ m x, if (x <? m)%float then x else m) r rs.

(** One turn of the loop [for (const nextCut of cuts)]. *)
Definition placeCut (lumberLen : float) (bins : list Bin) (nextCut : Cut) : list Bin :=
  let remainders :=
    filter (λ val, (value nextCut <=? val)%float = true)
           (getBinRemainder lumberLen <$> bins) in
  match remainders with
  | [] => bins ++ [[nextCut]]
  | r :: rs =>
      let minUsableRemainder := minOf r rs in
      (λ bin, if (getBinRemainder lumberLen bin =? minUsableRemainder)%float
              then bin ++ [nextCut] else bin) <$> bins
  end.

(** [function solveCuts(cuts, lumberLen, bins)]; [bins = None] is the omitted
    argument ([bins ?? [[]]]). *)
Definition solveCuts (cuts : list Cut) (lumberLen : float) (bins : option (list Bin))
  : list Bin :=
  foldl (placeCut lumberLen) (default [[]] bins) (sortCutsDesc cuts).

(** [obj[key]]: [None] is [undefined]. *)
Fixpoint getProp (obj : list (string * list float)) (key : string)
  : option (list float) :=
  match obj with
  | [] => None
  | (k, v) :: obj' => if decide (k = key) then Some v else getProp obj' key
  end.

(** [inputs.cuts[key].map((val) => new Cut(val, key))] *)
Definition cutsOfPart (key : string) (vals : list float) : list Cut :=
  (λ val, mkCut val key) <$> vals.

(** The loop of [groupedSolve] over the named parts. *)
Definition solveParts (lumberLen : float) (cuts : list (string * list float))
  : list Bin :=
  foldl (λ bins entry,
           if decide (entry.1 = "false") then bins
           else bins ++ solveCuts (cutsOfPart entry.1 entry.2) lumberLen None)
        [] cuts.

(** [bins.sort((a,b) => sumCutList(a) - sumCutList(b)).reverse()] *)
Definition sortBinsDesc (bins : list Bin) : list Bin :=
  reverse (js_sort (λ a b, sign (sumCutList a - sumCutList b)%float) bins).

(** The test of the inner loop: [getBinRemainder(bin2) >= (lumberLen - getBinRemainder(bin))]. *)
Definition fitsInto (lumberLen : float) (bin bin2 : Bin) : bool :=
  (lumberLen - getBinRemainder lumberLen bin <=? getBinRemainder lumberLen bin2)%float.

(** The inner loop [for (var j=i+1; j<bins.length; j++)], from [j] on, with
    [bin = bins[i]] read before the loop. *)
Equations? mergeScan (lumberLen : float) (bin : Bin) (i : nat) (bins : list Bin) (j : nat)
  : list Bin by wf (length bins - j)%nat lt :=
mergeScan lumberLen bin i bins j with decide (j < length bins)%nat := {
  | right _ := bins
  | left _ with fitsInto lumberLen bin (bins !!! j) := {
      | true := delete j (<[i := bin ++ bins !!! j]> bins)
      | false := mergeScan lumberLen bin i bins (S j) } }.
Proof. lia. Qed.

(** The outer loop [for (var i=0; i<bins.length-1; i++)], from [i] on. *)
Equations? mergeLoop (lumberLen : float) (bins : list Bin) (i : nat)
  : list Bin by wf (length bins - i)%nat lt :=
mergeLoop lumberLen bins i with decide (Z.of_nat i < Z.of_nat (length bins) - 1) := {
  | right _ := bins
  | left _ := mergeLoop lumberLen (mergeScan lumberLen (bins !!! i) i bins (S i)) (S i) }.
Proof.
  assert (∀ bin k bs j, (length (mergeScan lumberLen bin k bs j) ≤ length bs)%nat) as Hlen.
  { intros bin k bs j. funelim (mergeScan lumberLen bin k bs j); [lia| |eauto].
    rewrite length_delete, length_insert; [lia|].
    apply lookup_lt_is_Some. by rewrite length_insert. }
  specialize (Hlen (bins !!! i) i bins (S i)). lia.
Qed.

(** The merge phase of [groupedSolve]: sort, then the two loops. *)
Definition mergeBins (lumberLen : float) (bins : list Bin) : list Bin :=
  mergeLoop lumberLen (sortBinsDesc bins) 0.

(** The fields of the validated inputs that the solvers and the display of
    the left-over read. *)
Record Inputs := mkInputs {
  lumberLen : float;
  effectiveLumberLen : float;
  cuts : list (string * list float)
}.

(** [function groupedSolve(inputs)]: the bin list it hands to
    [displaySolution]. *)
Definition groupedSolve (inputs : Inputs) : option (list Bin) :=
  let lumberLen := effectiveLumberLen inputs in
  let bins := solveParts lumberLen (cuts inputs) in
  let bins := mergeBins lumberLen bins in
  match getProp (cuts inputs) "false" with
  | None => None
  | Some misc => Some (solveCuts (cutsOfPart "false" misc) lumberLen (Some bins))
  end.

(** [inputs.lumberLen - sumCutList(sublist)]: the length [displaySolution]
    prints as left over on a board. *)
Definition leftOver (inputs : Inputs) (bin : Bin) : float :=
  (lumberLen inputs - sumCutList bin)%float.

(** The numbers read from the page: what [parseInt] returns for the field of
    the lumber length, what [parseFloat] returns for the margin and for the
    blade width, and, for each line of the field of cuts, its part name if it
    has one and what [parseFloat] returns for the texts between its commas. *)
Record page := mkPage {
  input_lumber_len : float;
  input_lumber_margin : float;
  input_cut_width : float;
  input_cuts : list (option string * list float)
}.

(** [subl.map((v) => v + cutWidth)] *)
Definition pad (cutWidth : float) (subl : list float) : list float :=
  (λ v, (v + cutWidth)%float) <$> subl.

(** [lumberLen * 12] and [lumberLen - (lumberMargin - cutWidth)] *)
Definition inches (p : page) : float := (input_lumber_len p * 12)%float.

Definition effective (p : page) : float :=
  (inches p - (input_lumber_margin p - input_cut_width p))%float.

(** [Math.max.apply(null, subl) > effectiveLumberLen], on numbers that are
    not [NaN]; the maximum of no number is [-Infinity]. *)
Definition exceeds (effectiveLumberLen : float) (subl : list float) : bool :=
  match subl with
  | [] => false
  | v :: vs =>
      (effectiveLumberLen <? foldl (λ m x, if (m <? x)%float then x else m) v vs)%float
  end.

(** The checks of [getAndValidateInputs], [parseCuts] and [parseCutsSublist]
    on these numbers (the checks of the part names aside): [true] when none
    of them shows a message. *)
Definition passesChecks (p : page) : bool :=
  negb (is_nan (input_lumber_len p) || (input_lumber_len p <=? 0)%float) &&
  negb (is_nan (input_lumber_margin p) || (input_lumber_margin p <? 0)%float) &&
  negb (is_nan (input_cut_width p) || (input_cut_width p <=? 0)%float) &&
  negb (input_lumber_margin p <? input_cut_width p)%float &&
  forallb (λ line : option string * list float,
             forallb (λ f, negb (is_nan f || (f <=? 0)%float)) line.2 &&
             negb (exceeds (effective p) (pad (input_cut_width p) line.2)))
          (input_cuts p).

(** The inputs [getAndValidateInputs] returns for a page that passes: the
    padded numbers of the lines without a part name under the key ["false"],
    and one key for each line with a part name. *)
Definition validated (p : page) : Inputs :=
  mkInputs (inches p) (effective p)
    (("false",
      concat (omap (λ line : option string * list float,
                      match line.1 with
                      | None => Some (pad (input_cut_width p) line.2)
                      | Some _ => None
                      end) (input_cuts p)))
     :: omap (λ line : option string * list float,
                (λ key, (key, pad (input_cut_width p) line.2)) <$> line.1)
             (input_cuts p)).

End Dbl.

(** The page with 2 feet of lumber, margin 0.3, blade 0.3 and the lines
    [a:8.5,1.3,0.3] and [b:12.7]: every number is the double nearest to the
    decimal typed. *)
#[warnings="-inexact-float"]
Definition roundingPage : Dbl.page :=
  Dbl.mkPage 2 0.3 0.3 [(Some "a", [8.5; 1.3; 0.3]); (Some "b", [12.7])]%float.

(** What the validation hands to the solvers for it. *)
Definition roundingInputs : Dbl.Inputs := Dbl.validated roundingPage.

(** The padded cuts of its two parts. *)
#[warnings="-inexact-float"]
Definition roundingPartA : Dbl.Bin :=
  [Dbl.mkCut (8.5 + 0.3)%float "a"; Dbl.mkCut (1.3 + 0.3)%float "a";
   Dbl.mkCut (0.3 + 0.3)%float "a"].

#[warnings="-inexact-float"]
Definition roundingPartB : Dbl.Bin := [Dbl.mkCut (12.7 + 0.3)%float "b"].

(** ** Predicates and projections used by the statements *)

(** A bin fits on a piece of lumber. *)
Definition fits (lumberLen : Z) (bin : Bin) : Prop := sumCutList bin ≤ lumberLen.

(** The invariants of the validated inputs (the checks of [parseCuts] and
    [getAndValidateInputs] are made for them): a positive effective length, each
    part name once, the key ["false"] present, every padded cut positive and
    no longer than the effective length. *)
Definition validInputs (inputs : Inputs) : Prop :=
  0 < effectiveLumberLen inputs ∧
  NoDup (cuts inputs).*1 ∧
  is_Some (getProp (cuts inputs) "false") ∧
  Forall (λ entry, Forall (λ v, 0 < v ≤ effectiveLumberLen inputs) entry.2)
         (cuts inputs).

(** The bin list when the loop of [solveCuts] reaches the cut that follows
    the cuts [pre] in the sorted list. *)
Definition binsBefore (lumberLen : Z) (bins : option (list Bin)) (pre : list Cut)
  : list Bin :=
  foldl (placeCut lumberLen) (default [[]] bins) pre.

(** [m] is the smallest remainder among the bins that have room for [c]. *)
Definition smallestUsable (lumberLen : Z) (bins : list Bin) (c : Cut) (m : Z) : Prop :=
  value c ≤ m ∧
  (∃ bin, bin ∈ bins ∧ getBinRemainder lumberLen bin = m) ∧
  Forall (λ bin, value c ≤ getBinRemainder lumberLen bin →
                 m ≤ getBinRemainder lumberLen bin) bins.

(** The bins that hold the smallest usable remainder for [c]: the ones that
    [placeCut] appends [c] to. *)
Definition tiedBins (lumberLen : Z) (bins : list Bin) (c : Cut) : list Bin :=
  match filter (λ val, value c ≤ val) (getBinRemainder lumberLen <$> bins) with
  | [] => []
  | r :: rs => filter (λ bin, getBinRemainder lumberLen bin = minOf r rs) bins
  end.

Definition noTie (lumberLen : Z) (bins : list Bin) (c : Cut) : Prop :=
  (length (tiedBins lumberLen bins c) ≤ 1)%nat.

(** No turn of the placement loop, run on the cuts [cs] from the bins
    [bins], meets two bins tied for the smallest usable remainder. *)
Fixpoint noTieRun (lumberLen : Z) (bins : list Bin) (cs : list Cut) : Prop :=
  match cs with
  | [] => True
  | c :: cs' => noTie lumberLen bins c ∧ noTieRun lumberLen (placeCut lumberLen bins c) cs'
  end.

(** The cut lengths of a bin list, bin by bin. *)
Definition binLengths (bin : Bin) : list Z := value <$> bin.
Definition lengthsOf (bins : list Bin) : list (list Z) := binLengths <$> bins.

(** [placeCut] read on lengths only. *)
Definition placeLength (lumberLen : Z) (bins : list (list Z)) (v : Z) : list (list Z) :=
  match filter (λ val, v ≤ val) ((λ bin, lumberLen - sumList bin) <$> bins) with
  | [] => bins ++ [[v]]
  | r :: rs =>
      (λ bin, if decide (lumberLen - sumList bin = minOf r rs)
              then bin ++ [v] else bin) <$> bins
  end.

(** Descending order on lengths is antisymmetric: a list of lengths has one
    descending arrangement. *)
#[local] Instance Z_ge_antisymm : AntiSymm (=) (λ a b : Z, b ≤ a).
Proof. intros a b ??. lia. Qed.

(** The lengths of an inputs record, all parts together. *)
Definition allLengths (inputs : Inputs) : list Z := concat (cuts inputs).*2.

(** ** Concrete inputs *)

(** The scenario of the specification: two parts and one ungrouped cut. *)
Definition scenarioInputs : Inputs :=
  mkInputs 96 [("false", [10]); ("partA", [30; 30]); ("partB", [40])].

(** Two parts [[2,2,3]] on lumber of usable length 7: part by part each fills
    one bin exactly; the flat list [3,3,2,2,2,2] is packed as [[3,3]],
    [[2,2,2]], [[2]].  No turn of either run meets a tie. *)
Definition twoFullParts : Inputs :=
  mkInputs 7 [("false", []); ("a", [2; 2; 3]); ("b", [2; 2; 3])].

(** Three cuts on lumber of length 10: after the two 6s each bin has 4 left,
    and the 4 meets a tie. *)
Definition tieCuts : list Cut :=
  [mkCut 6 "false"; mkCut 6 "false"; mkCut 4 "false"].

Definition halves : list Cut :=
  [mkCut 48 "false"; mkCut 48 "false"; mkCut 48 "false"].

(** The scenario with other part names and another grouping of the same
    lengths. *)
Definition regroupedInputs : Inputs :=
  mkInputs 96 [("false", [30; 40]); ("x", [10; 30])].

(** Three parts on lumber of length 100: part by part three bins that the
    merge cannot join; the flat list [61,60,40,39] fills two. *)
Definition threeParts : Inputs :=
  mkInputs 100 [("false", []); ("a", [60]); ("b", [61]); ("c", [40; 39])].

(** A store where the bin list [0] holds the bin arrays [0] and [1]. *)
Definition twoBinStore : Heap.heap :=
  Heap.mkHeap
    (<[0%nat := [mkCut 30 "partA"; mkCut 30 "partA"]]>
       (<[1%nat := [mkCut 40 "partB"]]> ∅))
    (<[0%nat := [0%nat; 1%nat]]> ∅).

(** ** More concrete inputs *)

(** A cut longer than the lumber, with one that fits. *)
Definition oversizedCuts : list Cut := [mkCut 48 "false"; mkCut 100 "false"].

(** ** The cuts of an inputs record *)

(** Every cut of the inputs as the solvers build it, [new Cut(val, key)],
    part after part. *)
Definition cutsOfInputs (inputs : Inputs) : list Cut :=
  concat ((λ entry, cutsOfPart entry.1 entry.2) <$> cuts inputs).

(** The cuts of the named parts, the ones the first loop of [groupedSolve]
    packs. *)
Definition namedCuts (entries : list (string * list Z)) : list Cut :=
  concat ((λ entry, if decide (entry.1 = "false") then []
                    else cutsOfPart entry.1 entry.2) <$> entries).

(** ** Reading and validating the form

    [getAndValidateInputs], [parseCuts] and [parseCutsSublist].  The four
    fields of the page are the input; the messages [addError] appends to the
    element ["errors"] are kept as a list.  [parseInt], [parseFloat] and
    [trim] are the language's own and are taken as they come: a text is read
    as a number or as [NaN] ([None]).  Numbers are whole here: readings with
    a fraction, infinite ones and sums that a double rounds are outside this
    model, and what is proved of the form is about its control flow and the
    object it builds, not about sizes.  An object is the list of its entries
    in the order its keys were set. *)
Module Form.
Import Stdlib.Strings.Ascii.

Definition newline : Ascii.ascii := "010"%char.

(** [s.split(sep)] for a separator of one character: never an empty array. *)
Fixpoint split (sep : Ascii.ascii) (s : string) : list string :=
  match s with
  | EmptyString => [EmptyString]
  | String c s' =>
      if decide (c = sep) then EmptyString :: split sep s'
      else match split sep s' with
           | [] => [String c EmptyString]
           | w :: ws => String c w :: ws
           end
  end.

(** [s.includes(c)] for one character. *)
Fixpoint includes (c : Ascii.ascii) (s : string) : bool :=
  match s with
  | EmptyString => false
  | String c' s' => if decide (c' = c) then true else includes c s'
  end.

(** [addError(msg)]: one more message under the ones shown. *)
Definition addError (msg : string) (errors : list string) : list string :=
  errors ++ [msg].

(** [obj[key] = v]: the entry is replaced where it stands, or added at the
    end. *)
Fixpoint setProp (obj : list (string * list Z)) (key : string) (v : list Z)
  : list (string * list Z) :=
  match obj with
  | [] => [(key, v)]
  | (k, w) :: obj' =>
      if decide (k = key) then (k, v) :: obj' else (k, w) :: setProp obj' key v
  end.

(** The page's fields, as [getVal] reads them. *)
Record fields := mkFields {
  input_lumber_len : string;
  input_lumber_margin : string;
  input_cut_width : string;
  input_cuts : string
}.

(** The object [getAndValidateInputs] returns when all is well. *)
Record validated := mkValidated {
  lumberLen : Z;
  effectiveLumberLen : Z;
  cutWidth : Z;
  lumberMargin : Z;
  cuts : list (string * list Z)
}.

(** What [getAndValidateInputs] can hand to its caller. *)
Inductive returned :=
| RUndefined
| RFalse
| RObject (inputs : validated).

(** [if (inputs === undefined) { return; }] in the click handler. *)
Definition stopsAtGuard (inputs : returned) : bool :=
  match inputs with
  | RUndefined => true
  | _ => false
  end.

(** [Math.max.apply(null, subl) > effectiveLumberLen]; the maximum of no
    number is [-Infinity]. *)
Definition exceeds (effectiveLumberLen : Z) (subl : list Z) : bool :=
  match subl with
  | [] => false
  | v :: vs => bool_decide (effectiveLumberLen < foldl Z.max v vs)
  end.

(** The text after the part name, or the whole line: [val] in [parseCuts]. *)
Definition keyOf (line : string) : option string :=
  match split ":"%char line with
  | [key; _] => Some key
  | _ => None
  end.

Definition valOf (line : string) : string :=
  match split ":"%char line with
  | [_; val] => val
  | _ => line
  end.

Section reading.
Variable parseInt : string → option Z.
Variable parseFloat : string → option Z.
Variable trim : string → string.

(** The names every object inherits from [Object.prototype] ([toString],
    [constructor], [__proto__], ...): the operator [in] answers [true] for
    them on any object. *)
Variable inherited : string → bool.

(** [key in cuts] *)
Definition hasKey (key : string) (obj : list (string * list Z)) : bool :=
  bool_decide (key ∈ obj.*1) || inherited key.

(** The loop [for (const f of sublist)] of [parseCutsSublist]. *)
Fixpoint checkCuts (sublist : list (option Z)) (errors : list string)
  : option (list Z) * list string :=
  match sublist with
  | [] => (Some [], errors)
  | None :: _ => (None, addError "All cuts should be positive numbers" errors)
  | Some f :: rest =>
      if decide (f ≤ 0)
      then (None, addError "All cuts should be positive numbers" errors)
      else match checkCuts rest errors with
           | (Some vs, errors') => (Some (f :: vs), errors')
           | (None, errors') => (None, errors')
           end
  end.

Definition parseCutsSublist (sublistText : string) (errors : list string)
  : option (list Z) * list string :=
  let tokens := split ","%char sublistText in
  if decide (length tokens = 0%nat)
  then (None, addError "A part cannot have no values" errors)
  else checkCuts ((λ s, parseFloat (trim s)) <$> tokens) errors.

(** The loop [for (const line of lines)] of [parseCuts]. *)
Fixpoint parseLines (cutWidth effectiveLumberLen : Z) (lines : list string)
    (cuts : list (string * list Z)) (errors : list string)
  : option (list (string * list Z)) * list string :=
  match lines with
  | [] => (Some cuts, errors)
  | line :: rest =>
      let key := keyOf line in
      let val := valOf line in
      match key with
      | Some k =>
          if hasKey k cuts
          then (None, addError ("Part names should not repeat: '" +:+ k +:+ "'") errors)
          else
            match parseCutsSublist val errors with
            | (None, errors') => (None, errors')
            | (Some subl, errors') =>
                let subl := (λ v, v + cutWidth) <$> subl in
                if exceeds effectiveLumberLen subl
                then (None, addError "Cuts cannot be longer than the lumber itself (accounting for error margins)" errors')
                else parseLines cutWidth effectiveLumberLen rest
                                (setProp cuts k subl) errors'
            end
      | None =>
          match parseCutsSublist val errors with
          | (None, errors') => (None, errors')
          | (Some subl, errors') =>
              let subl := (λ v, v + cutWidth) <$> subl in
              if exceeds effectiveLumberLen subl
              then (None, addError "Cuts cannot be longer than the lumber itself (accounting for error margins)" errors')
              else parseLines cutWidth effectiveLumberLen rest
                              (setProp cuts "false"
                                 (default [] (getProp cuts "false") ++ subl))
                              errors'
          end
      end
  end.

(** [function parseCuts(cutWidth, effectiveLumberLen)]; [None] is
    [undefined]. *)
Definition parseCuts (cutWidth effectiveLumberLen : Z) (text : string)
    (errors : list string) : option (list (string * list Z)) * list string :=
  parseLines cutWidth effectiveLumberLen (split newline text) [("false", [])] errors.

(** [function getAndValidateInputs()]: what it returns, and the messages
    shown when it returns ([clearErrors] empties them first). *)
Definition getAndValidateInputs (page : fields) : returned * list string :=
  let errors := [] in
  let lumberLen :=
    if includes "."%char (input_lumber_len page) then None
    else parseInt (input_lumber_len page) in
  let lumberMargin := parseFloat (input_lumber_margin page) in
  let cutWidth := parseFloat (input_cut_width page) in
  match lumberLen, lumberMargin, cutWidth with
  | Some len, Some margin, Some width =>
      if decide (len ≤ 0)
      then (RFalse, addError "Lumber length must be a positive integer." errors)
      else if decide (margin < 0)
      then (RFalse, addError "Lumber error margin must be a non-negative number." errors)
      else if decide (width ≤ 0)
      then (RFalse, addError "Blade width must be a positive number." errors)
      else if decide (margin < width)
      then (RFalse, addError "Lumber error margin cannot be less than blade width." errors)
      else
        let len := len * 12 in
        let effective := len - (margin - width) in
        match parseCuts width effective (input_cuts page) errors with
        | (None, errors') => (RFalse, errors')
        | (Some cuts, errors') =>
            (RObject (mkValidated len effective width margin cuts), errors')
        end
  | None, _, _ =>
      (RFalse, addError "Lumber length must be a positive integer." errors)
  | Some len, None, _ =>
      if decide (len ≤ 0)
      then (RFalse, addError "Lumber length must be a positive integer." errors)
      else (RFalse, addError "Lumber error margin must be a non-negative number." errors)
  | Some len, Some margin, None =>
      if decide (len ≤ 0)
      then (RFalse, addError "Lumber length must be a positive integer." errors)
      else if decide (margin < 0)
      then (RFalse, addError "Lumber error margin must be a non-negative number." errors)
      else (RFalse, addError "Blade width must be a positive number." errors)
  end.

End reading.

(** The texts between commas: of a text, of a line, and of the field of
    cuts. *)
Definition tokens (text : string) : list string := split ","%char text.

Definition tokensOfLine (line : string) : list string := tokens (valOf line).

Definition tokensOf (text : string) : list string :=
  concat (tokensOfLine <$> split newline text).

(** What [parseCuts] leaves in the object it builds: each key once, the key
    ["false"] among them, every length above the blade width and within the
    effective length, and for every part name at least one length and a name
    that is no inherited one. *)
Definition accepted (inherited : string → bool) (cutWidth effectiveLumberLen : Z)
    (obj : list (string * list Z)) : Prop :=
  NoDup obj.*1 ∧
  "false" ∈ obj.*1 ∧
  Forall (λ entry, Forall (λ x, cutWidth < x ≤ effectiveLumberLen) entry.2) obj ∧
  Forall (λ entry, entry.1 ≠ "false" → entry.2 ≠ [] ∧ inherited entry.1 = false) obj.

(** The padded length a text between commas stands for. *)
Definition paddedLength (parseFloat : string → option Z) (trim : string → string)
    (cutWidth : Z) (s : string) : Z :=
  default 0 (parseFloat (trim s)) + cutWidth.

(** The padded lengths a line stands for; the lengths of the lines without
    a part name, in the order typed; the parts of the lines with a name, in the
    order typed. *)
Definition paddedLine (parseFloat : string → option Z) (trim : string → string)
    (cutWidth : Z) (line : string) : list Z :=
  paddedLength parseFloat trim cutWidth <$> tokensOfLine line.

Definition miscOf (parseFloat : string → option Z) (trim : string → string)
    (cutWidth : Z) (lines : list string) : list Z :=
  concat ((λ line, match keyOf line with
                   | None => paddedLine parseFloat trim cutWidth line
                   | Some _ => []
                   end) <$> lines).

Definition partsOf (parseFloat : string → option Z) (trim : string → string)
    (cutWidth : Z) (lines : list string) : list (string * list Z) :=
  omap (λ line, (λ k, (k, paddedLine parseFloat trim cutWidth line)) <$> keyOf line)
       lines.

(** The lines of the field of cuts. *)
Definition linesOf (text : string) : list string := split newline text.

End Form.

(** A reader of digits, to have a [parseInt] and a [parseFloat] to run the
    form on: for a text of digits, the number it spells, which is what both
    return; the pages below hold no other number text. *)
Fixpoint readDigits (acc : Z) (s : string) : option Z :=
  match s with
  | EmptyString => Some acc
  | String c s' =>
      let n := Z.of_nat (Ascii.nat_of_ascii c) - 48 in
      if decide (0 ≤ n ≤ 9) then readDigits (10 * acc + n) s' else None
  end.

Definition readNumber (s : string) : option Z :=
  match s with
  | EmptyString => None
  | _ => readDigits 0 s
  end.

(** What [demoPage] below is read as. *)
Definition demoInputs : Form.validated :=
  Form.mkValidated 96 96 1 1 [("false", [10]); ("partA", [30; 30]); ("partB", [40])].

(** A page: 8 feet of lumber, margin 1, blade 1, two parts and one more
    cut. *)
Definition demoPage : Form.fields :=
  Form.mkFields "8" "1" "1" ("partA:29,29" +:+ String Form.newline ("partB:39" +:+ String Form.newline "9")).

(** * Properties *)

(** ** The engine on the scenarios of the specification *)

Example solveCuts_48 :
  solveCuts [mkCut 48 "false"; mkCut 48 "false"; mkCut 48 "false"] 96 None
  = [[mkCut 48 "false"; mkCut 48 "false"]; [mkCut 48 "false"]].
Proof. reflexivity. Qed.

Example groupedSolve_scenario :
  groupedSolve (mkInputs 96 [("false", [10]); ("partA", [30; 30]); ("partB", [40])])
  = Some [[mkCut 30 "partA"; mkCut 30 "partA"; mkCut 10 "false"]; [mkCut 40 "partB"]].
Proof. reflexivity. Qed.

(** ** Sorting *)

Section js_sort_facts.
Context {A : Type} (comparefn : A → A → option Z).

Lemma sort_insert_Permutation (x : A) (l : list A) :
  sort_insert comparefn x l ≡ₚ x :: l.
Proof.
  induction l as [|y l IH]; simpl; [done|].
  case_decide; [done|]. rewrite IH. apply Permutation_swap.
Qed.

Lemma js_sort_Permutation (l : list A) : js_sort comparefn l ≡ₚ l.
Proof.
  induction l as [|x l IH]; simpl; [done|].
  rewrite sort_insert_Permutation. by f_equiv.
Qed.

End js_sort_facts.

(** A comparator that subtracts keys sorts by key, ascending. *)
Section js_sort_by_key.
Context {A : Type} (key : A → Z).

Definition byKey (a b : A) : option Z := Some (key a - key b).

Lemma sort_insert_sorted (x : A) (l : list A) :
  StronglySorted (λ a b, key a ≤ key b) l →
  StronglySorted (λ a b, key a ≤ key b) (sort_insert byKey x l).
Proof.
  induction 1 as [|y l Hl IH Hy]; simpl.
  - repeat constructor.
  - unfold sortCompare, byKey; simpl. case_decide as Hxy.
    + constructor; [by constructor|].
      constructor; [lia|]. eapply Forall_impl; [exact Hy|]. simpl. lia.
    + constructor; [done|].
      rewrite sort_insert_Permutation. constructor; [lia | done].
Qed.

Lemma js_sort_sorted (l : list A) :
  StronglySorted (λ a b, key a ≤ key b) (js_sort byKey l).
Proof.
  induction l as [|x l IH]; simpl; [constructor|].
  by apply sort_insert_sorted.
Qed.

(** Stability: elements with the same key keep their order. *)
Lemma sort_insert_stable (k : Z) (x : A) (l : list A) :
  filter (λ a, key a = k) (sort_insert byKey x l) = filter (λ a, key a = k) (x :: l).
Proof.
  induction l as [|y l IH]; simpl; [done|].
  unfold sortCompare, byKey at 1; simpl. case_decide as Hxy; [done|].
  rewrite filter_cons, IH, !filter_cons.
  repeat case_decide; try done; lia.
Qed.

Lemma js_sort_stable (k : Z) (l : list A) :
  filter (λ a, key a = k) (js_sort byKey l) = filter (λ a, key a = k) l.
Proof.
  induction l as [|x l IH]; simpl; [done|].
  rewrite sort_insert_stable, !filter_cons. by rewrite IH.
Qed.

Lemma StronglySorted_reverse_key (l : list A) :
  StronglySorted (λ a b, key a ≤ key b) l →
  StronglySorted (λ a b, key b ≤ key a) (reverse l).
Proof.
  induction 1 as [|x l Hl IH Hx]; [constructor|].
  rewrite reverse_cons. apply StronglySorted_app_2; [|done|repeat constructor].
  intros a b Ha Hb. apply list_elem_of_singleton in Hb as ->.
  apply elem_of_reverse in Ha. rewrite reverse_involutive in Ha.
  rewrite Forall_forall in Hx. by apply Hx.
Qed.

End js_sort_by_key.

Lemma sortCutsDesc_Permutation (cuts : list Cut) : sortCutsDesc cuts ≡ₚ cuts.
Proof. unfold sortCutsDesc. by rewrite reverse_Permutation, js_sort_Permutation. Qed.

Lemma sortCutsDesc_sorted (cuts : list Cut) :
  StronglySorted (λ a b, value b ≤ value a) (sortCutsDesc cuts).
Proof. apply StronglySorted_reverse_key, (js_sort_sorted value). Qed.

Lemma sortBinsDesc_Permutation (bins : list Bin) : sortBinsDesc bins ≡ₚ bins.
Proof. unfold sortBinsDesc. by rewrite reverse_Permutation, js_sort_Permutation. Qed.

(** ** Sums *)

Lemma foldl_add (a : Z) (l : list Z) : foldl (λ a b, a + b) a l = a + sumList l.
Proof.
  unfold sumList. revert a. induction l as [|x l IH] using rev_ind; intros a.
  - simpl. lia.
  - rewrite !foldl_snoc, IH. lia.
Qed.

Lemma sumList_app (l k : list Z) : sumList (l ++ k) = sumList l + sumList k.
Proof. unfold sumList at 1. by rewrite foldl_app, !foldl_add. Qed.

Lemma sumList_cons (x : Z) (l : list Z) : sumList (x :: l) = x + sumList l.
Proof. unfold sumList at 1. simpl. by rewrite foldl_add. Qed.

Lemma sumCutList_app (b1 b2 : Bin) :
  sumCutList (b1 ++ b2) = sumCutList b1 + sumCutList b2.
Proof. unfold sumCutList. by rewrite fmap_app, sumList_app. Qed.

Lemma sumCutList_snoc (b : Bin) (c : Cut) :
  sumCutList (b ++ [c]) = sumCutList b + value c.
Proof. rewrite sumCutList_app. unfold sumCutList. simpl. rewrite sumList_cons. unfold sumList; simpl. lia. Qed.

(** ** The smallest usable remainder *)

Lemma minOf_le (r : Z) (rs : list Z) : Forall (λ v, minOf r rs ≤ v) (r :: rs).
Proof.
  unfold minOf. revert r. induction rs as [|x rs IH] using rev_ind; intros r.
  - simpl. constructor; [lia | constructor].
  - rewrite foldl_snoc. specialize (IH r).
    change (r :: rs ++ [x]) with ((r :: rs) ++ [x]).
    apply Forall_app; split.
    + eapply Forall_impl; [exact IH|]. simpl. lia.
    + repeat constructor. lia.
Qed.

Lemma minOf_elem (r : Z) (rs : list Z) : minOf r rs ∈ r :: rs.
Proof.
  unfold minOf. revert r. induction rs as [|x rs IH] using rev_ind; intros r.
  - simpl. left.
  - rewrite foldl_snoc. specialize (IH r).
    change (r :: rs ++ [x]) with ((r :: rs) ++ [x]).
    apply elem_of_app.
    destruct (Z.min_spec (foldl Z.min r rs) x) as [[_ ->]|[_ ->]]; [by left|].
    right. left.
Qed.

(** ** Capacity *)

Lemma usable_remainder (lumberLen : Z) (bins : list Bin) (c : Cut) r rs :
  filter (λ val, value c ≤ val) (getBinRemainder lumberLen <$> bins) = r :: rs →
  value c ≤ minOf r rs ∧
  (∃ bin, bin ∈ bins ∧ getBinRemainder lumberLen bin = minOf r rs) ∧
  Forall (λ bin, value c ≤ getBinRemainder lumberLen bin →
                 minOf r rs ≤ getBinRemainder lumberLen bin) bins.
Proof.
  intros Hf.
  pose proof (minOf_elem r rs) as Hin. rewrite <- Hf in Hin.
  apply list_elem_of_filter in Hin as [Hge Hin].
  apply list_elem_of_fmap in Hin as (bin & Hbin & Hin).
  split; [done|]. split; [by exists bin|].
  apply Forall_forall. intros b Hb Hq.
  pose proof (minOf_le r rs) as Hle. rewrite <- Hf in Hle.
  rewrite Forall_forall in Hle. apply Hle.
  apply list_elem_of_filter. split; [done|]. by apply list_elem_of_fmap_2.
Qed.

Lemma placeCut_fits (lumberLen : Z) (bins : list Bin) (c : Cut) :
  value c ≤ lumberLen →
  Forall (fits lumberLen) bins → Forall (fits lumberLen) (placeCut lumberLen bins c).
Proof.
  intros Hc Hbins. unfold placeCut.
  destruct (filter _ _) as [|r rs] eqn:Hf.
  - apply Forall_app. split; [done|]. repeat constructor.
    unfold fits, sumCutList, sumList. simpl. lia.
  - apply usable_remainder in Hf as (Hm & _ & _).
    apply Forall_fmap. eapply Forall_impl; [exact Hbins|].
    intros bin Hbin. simpl. case_decide as Heq; [|done].
    unfold fits, getBinRemainder in *. rewrite sumCutList_snoc. lia.
Qed.

Lemma foldl_placeCut_fits (lumberLen : Z) (cs : list Cut) (bins : list Bin) :
  Forall (λ c, value c ≤ lumberLen) cs →
  Forall (fits lumberLen) bins →
  Forall (fits lumberLen) (foldl (placeCut lumberLen) bins cs).
Proof.
  intros Hcs. revert bins. induction Hcs as [|c cs Hc _ IH]; intros bins Hbins; simpl.
  - done.
  - by apply IH, placeCut_fits.
Qed.

Lemma solveCuts_fits (cuts : list Cut) (lumberLen : Z) (bins : option (list Bin)) :
  0 ≤ lumberLen →
  Forall (λ c, value c ≤ lumberLen) cuts →
  (∀ bs, bins = Some bs → Forall (λ b, 0 ≤ getBinRemainder lumberLen b) bs) →
  Forall (fits lumberLen) (solveCuts cuts lumberLen bins).
Proof.
  intros HL Hcuts Hbins. unfold solveCuts. apply foldl_placeCut_fits.
  - by rewrite sortCutsDesc_Permutation.
  - destruct bins as [bs|]; simpl.
    + eapply Forall_impl; [by apply Hbins|].
      intros b. unfold fits, getBinRemainder. lia.
    + repeat constructor. unfold fits, sumCutList, sumList. simpl. lia.
Qed.

Lemma mergeScan_fits (lumberLen : Z) (bin : Bin) (i : nat) (bins : list Bin) (j : nat) :
  Forall (fits lumberLen) bins →
  Forall (fits lumberLen) (mergeScan lumberLen bin i bins j).
Proof.
  funelim (mergeScan lumberLen bin i bins j); intros Hbins; [done| |by auto].
  apply Forall_delete, Forall_insert; [done|].
  match goal with Hfit : fitsInto _ _ _ |- _ => generalize Hfit end.
  unfold fitsInto, fits, getBinRemainder. rewrite sumCutList_app. lia.
Qed.

Lemma mergeLoop_fits (lumberLen : Z) (bins : list Bin) (i : nat) :
  Forall (fits lumberLen) bins →
  Forall (fits lumberLen) (mergeLoop lumberLen bins i).
Proof.
  funelim (mergeLoop lumberLen bins i); intros Hbins; [|done].
  match goal with IH : _ → Forall _ (mergeLoop _ _ _) |- _ => apply IH end.
  by apply mergeScan_fits.
Qed.

Lemma mergeBins_fits (lumberLen : Z) (bins : list Bin) :
  Forall (fits lumberLen) bins → Forall (fits lumberLen) (mergeBins lumberLen bins).
Proof.
  intros Hbins. apply mergeLoop_fits. by rewrite sortBinsDesc_Permutation.
Qed.

Lemma cutsOfPart_values (key : string) (vals : list Z) :
  value <$> cutsOfPart key vals = vals.
Proof.
  unfold cutsOfPart. rewrite <- list_fmap_compose.
  induction vals as [|v vals IH]; simpl; [done|]. by f_equal.
Qed.

Lemma cutsOfPart_bound (lumberLen : Z) (key : string) (vals : list Z) :
  Forall (λ v, 0 < v ≤ lumberLen) vals →
  Forall (λ c, value c ≤ lumberLen) (cutsOfPart key vals).
Proof.
  intros H. apply Forall_fmap. eapply Forall_impl; [exact H|]. simpl. lia.
Qed.

Lemma solveParts_fits (lumberLen : Z) (parts : list (string * list Z)) :
  0 ≤ lumberLen →
  Forall (λ entry, Forall (λ v, 0 < v ≤ lumberLen) entry.2) parts →
  Forall (fits lumberLen) (solveParts lumberLen parts).
Proof.
  intros HL Hparts. unfold solveParts.
  assert (Forall (fits lumberLen) []) as Hacc by constructor.
  revert Hacc. generalize (@nil Bin) as acc.
  induction Hparts as [|entry parts Hentry _ IH]; intros acc Hacc; simpl; [done|].
  apply IH. case_decide; [done|].
  apply Forall_app. split; [done|].
  apply solveCuts_fits; [done| by apply cutsOfPart_bound | done].
Qed.

Lemma getProp_elem (obj : list (string * list Z)) (key : string) (v : list Z) :
  getProp obj key = Some v → (key, v) ∈ obj.
Proof.
  induction obj as [|[k w] obj IH]; simpl; [done|].
  case_decide as Hk; intros Hv.
  - injection Hv as <-. subst k. left.
  - right. auto.
Qed.

(** With exact sums (whole lengths, of a size that a double holds exactly)
    the tests of the engine keep the bins within the usable length: when
    every cut is no longer than the usable length and the bins given on entry
    (if any) have a non-negative remainder, every bin returned by [solveCuts]
    has a sum of cut lengths of at most the usable length; and for valid
    inputs the same holds for every bin that leaves the merge phase of
    [groupedSolve], and for every bin of its final result.  With rounded sums
    it does not hold: the module [Dbl] is there to say so. *)
Lemma capacity_with_exact_sums
    (cuts0 : list Cut) (lumberLen : Z) (bins : option (list Bin)) (inputs : Inputs) :
  0 ≤ lumberLen →
  Forall (λ c, value c ≤ lumberLen) cuts0 →
  (∀ bs, bins = Some bs → Forall (λ b, 0 ≤ getBinRemainder lumberLen b) bs) →
  validInputs inputs →
  Forall (λ bin, sumCutList bin ≤ lumberLen) (solveCuts cuts0 lumberLen bins) ∧
  Forall (λ bin, sumCutList bin ≤ effectiveLumberLen inputs)
    (mergeBins (effectiveLumberLen inputs)
       (solveParts (effectiveLumberLen inputs) (cuts inputs))) ∧
  ∃ out, groupedSolve inputs = Some out ∧
         Forall (λ bin, sumCutList bin ≤ effectiveLumberLen inputs) out.
Proof.
  intros HL Hcuts Hbins (HL' & _ & [misc Hmisc] & Hvals).
  split; [by apply solveCuts_fits|].
  assert (Forall (fits (effectiveLumberLen inputs))
            (mergeBins (effectiveLumberLen inputs)
               (solveParts (effectiveLumberLen inputs) (cuts inputs)))) as Hmerged.
  { apply mergeBins_fits, solveParts_fits; [lia | done]. }
  split; [done|].
  unfold groupedSolve. rewrite Hmisc. eexists; split; [done|].
  apply solveCuts_fits; [lia | |].
  - apply cutsOfPart_bound. apply getProp_elem in Hmisc.
    rewrite Forall_forall in Hvals. by apply (Hvals _ Hmisc).
  - intros bs [= <-]. eapply Forall_impl; [exact Hmerged|].
    intros b. unfold fits, getBinRemainder. lia.
Qed.

(** C1.  The capacity bound does not hold in the arithmetic of the source.
    The page with 2 feet of lumber, margin 0.3, blade 0.3 and the lines
    [a:8.5,1.3,0.3] and [b:12.7] passes the checks of the validation; the
    usable length is 24 and every padded cut is at most 24.  The first loop
    of [groupedSolve] leaves the bin of part [a], of sum 11, and the bin of
    part [b], of sum 13.  The test of the merge finds room for one in the
    other, both of its sides being 13, and the merged bin has the sum of the
    double next above 24: the bin that [groupedSolve] returns is longer than
    the usable length, and the length shown as left over on it is negative. *)
Theorem merge_overfills_a_board :
  Dbl.passesChecks roundingPage = true ∧
  Dbl.effectiveLumberLen roundingInputs = 24%float ∧
  Forall (λ entry,
            Forall (λ v, (v <=? Dbl.effectiveLumberLen roundingInputs)%float = true)
                   entry.2)
         (Dbl.cuts roundingInputs) ∧
  Dbl.solveParts 24 (Dbl.cuts roundingInputs) = [roundingPartA; roundingPartB] ∧
  Dbl.sumCutList roundingPartA = 11%float ∧
  Dbl.sumCutList roundingPartB = 13%float ∧
  Dbl.getBinRemainder 24 roundingPartA = 13%float ∧
  (24 - Dbl.getBinRemainder 24 roundingPartB)%float = 13%float ∧
  Dbl.fitsInto 24 roundingPartB roundingPartA = true ∧
  Dbl.mergeBins 24 [roundingPartA; roundingPartB] = [roundingPartB ++ roundingPartA] ∧
  Dbl.groupedSolve roundingInputs = Some [roundingPartB ++ roundingPartA] ∧
  Dbl.sumCutList (roundingPartB ++ roundingPartA) = next_up 24 ∧
  (24 <? Dbl.sumCutList (roundingPartB ++ roundingPartA))%float = true ∧
  (Dbl.leftOver roundingInputs (roundingPartB ++ roundingPartA) <? 0)%float = true.
Proof.
  split; [reflexivity|]. split; [reflexivity|]. split.
  { repeat (apply Forall_cons_2; [repeat (apply Forall_cons_2; [reflexivity|]);
                                  apply Forall_nil_2|]).
    apply Forall_nil_2. }
  repeat split; vm_compute; reflexivity.
Qed.

(** ** The placement rule *)

Lemma placeCut_cases (lumberLen : Z) (bins : list Bin) (c : Cut) :
  (Forall (λ bin, getBinRemainder lumberLen bin < value c) bins ∧
   placeCut lumberLen bins c = bins ++ [[c]])
  ∨ (∃ m, smallestUsable lumberLen bins c m ∧
          placeCut lumberLen bins c =
          (λ bin, if decide (getBinRemainder lumberLen bin = m)
                  then bin ++ [c] else bin) <$> bins).
Proof.
  unfold placeCut. destruct (filter _ _) as [|r rs] eqn:Hf.
  - left. split; [|done]. apply Forall_forall. intros bin Hbin.
    destruct (decide (value c ≤ getBinRemainder lumberLen bin)) as [Hle|]; [|lia].
    assert (getBinRemainder lumberLen bin ∈ @nil Z) as Hin; [|by inv Hin].
    rewrite <- Hf. apply list_elem_of_filter. split; [done|].
    by apply list_elem_of_fmap_2.
  - right. exists (minOf r rs). split; [|done]. by apply usable_remainder.
Qed.

Lemma solveCuts_split (cuts0 : list Cut) (lumberLen : Z) (bins : option (list Bin))
    (pre : list Cut) (c : Cut) (post : list Cut) :
  sortCutsDesc cuts0 = pre ++ c :: post →
  solveCuts cuts0 lumberLen bins
  = foldl (placeCut lumberLen) (placeCut lumberLen (binsBefore lumberLen bins pre) c) post.
Proof. intros Hs. unfold solveCuts, binsBefore. by rewrite Hs, foldl_app. Qed.


(** C3. Ties: when several bins hold the smallest usable remainder for the
    cut being placed, every one of them receives the cut. *)
Theorem tied_bins_all_receive
    (cuts0 : list Cut) (lumberLen : Z) (bins : option (list Bin))
    (pre : list Cut) (c : Cut) (post : list Cut) (i j : nat) (bi bj : Bin) :
  sortCutsDesc cuts0 = pre ++ c :: post →
  i ≠ j →
  binsBefore lumberLen bins pre !! i = Some bi →
  binsBefore lumberLen bins pre !! j = Some bj →
  value c ≤ getBinRemainder lumberLen bi →
  getBinRemainder lumberLen bj = getBinRemainder lumberLen bi →
  Forall (λ other, value c ≤ getBinRemainder lumberLen other →
                   getBinRemainder lumberLen bi ≤ getBinRemainder lumberLen other)
         (binsBefore lumberLen bins pre) →
  placeCut lumberLen (binsBefore lumberLen bins pre) c !! i = Some (bi ++ [c]) ∧
  placeCut lumberLen (binsBefore lumberLen bins pre) c !! j = Some (bj ++ [c]) ∧
  solveCuts cuts0 lumberLen bins
  = foldl (placeCut lumberLen) (placeCut lumberLen (binsBefore lumberLen bins pre) c) post.
Proof.
  intros Hs _ Hi Hj Hfit Htie Hmin.
  destruct (placeCut_cases lumberLen (binsBefore lumberLen bins pre) c)
    as [[Hnone _]|(m & (Hm & (bin & Hbin & Hrem) & Hleast) & Heq)].
  { rewrite Forall_lookup in Hnone. specialize (Hnone _ _ Hi). simpl in Hnone. lia. }
  assert (getBinRemainder lumberLen bi = m) as Hbi.
  { rewrite Forall_forall in Hmin. rewrite Forall_lookup in Hleast.
    specialize (Hmin _ Hbin). specialize (Hleast _ _ Hi). simpl in *. lia. }
  rewrite Heq, !list_lookup_fmap, Hi, Hj. simpl.
  rewrite !decide_True by congruence.
  split; [done|]. split; [done|]. rewrite <- Heq. by apply solveCuts_split.
Qed.

(** ** Completeness of a run without ties *)

Lemma concat_push_where (P : Bin → Prop) `{!∀ bin, Decision (P bin)}
    (bins : list Bin) (c : Cut) :
  concat ((λ bin, if decide (P bin) then bin ++ [c] else bin) <$> bins)
  ≡ₚ concat bins ++ replicate (length (filter P bins)) c.
Proof.
  induction bins as [|b bins IH]; simpl; [done|].
  rewrite filter_cons. rewrite IH. case_decide; simpl.
  - rewrite <- !(assoc_L (++)). f_equiv.
    rewrite (Permutation_app_comm (concat bins) (c :: _)). simpl.
    rewrite (Permutation_app_comm _ (concat bins)). done.
  - by rewrite (assoc_L (++)).
Qed.

Lemma placeCut_noTie (lumberLen : Z) (bins : list Bin) (c : Cut) :
  noTie lumberLen bins c →
  concat (placeCut lumberLen bins c) ≡ₚ concat bins ++ [c].
Proof.
  unfold noTie, tiedBins, placeCut.
  destruct (filter _ (_ <$> _)) as [|r rs] eqn:Hf; intros Hone.
  - rewrite concat_app. simpl. done.
  - rewrite concat_push_where.
    apply usable_remainder in Hf as (_ & (bin & Hbin & Hrem) & _).
    assert (bin ∈ filter (λ b, getBinRemainder lumberLen b = minOf r rs) bins) as Hin.
    { by apply list_elem_of_filter. }
    destruct (filter _ bins) as [|b1 [|b2 tied]]; simpl in *; [by inv Hin | done | lia].
Qed.

Lemma foldl_placeCut_noTie (lumberLen : Z) (cs : list Cut) (bins : list Bin) :
  noTieRun lumberLen bins cs →
  concat (foldl (placeCut lumberLen) bins cs) ≡ₚ concat bins ++ cs.
Proof.
  revert bins. induction cs as [|c cs IH]; intros bins; simpl.
  - by rewrite app_nil_r.
  - intros [Hc Hcs]. rewrite (IH _ Hcs), (placeCut_noTie _ _ _ Hc).
    by rewrite <- (assoc_L (++)).
Qed.

(** C4. Completeness: in a run where no turn of the placement loop meets two
    bins tied for the smallest usable remainder, the cuts held by the
    returned bins are the cuts held by the bins on entry plus the input cuts,
    each exactly once; from no bins on entry, they are the input cuts.  When
    the cuts are pairwise different, no cut is in two bins, or twice in
    one. *)
Theorem complete_without_ties
    (cuts0 : list Cut) (lumberLen : Z) (bins : option (list Bin)) :
  noTieRun lumberLen (default [[]] bins) (sortCutsDesc cuts0) →
  concat (solveCuts cuts0 lumberLen bins) ≡ₚ concat (default [[]] bins) ++ cuts0 ∧
  (∀ c : Cut,
     length (filter (λ x, x = c) (concat (solveCuts cuts0 lumberLen bins)))
     = (length (filter (λ x, x = c) (concat (default [[]] bins)))
        + length (filter (λ x, x = c) cuts0))%nat) ∧
  (NoDup (concat (default [[]] bins) ++ cuts0) →
   NoDup (concat (solveCuts cuts0 lumberLen bins))).
Proof.
  intros Hrun. unfold solveCuts.
  assert (concat (foldl (placeCut lumberLen) (default [[]] bins) (sortCutsDesc cuts0))
          ≡ₚ concat (default [[]] bins) ++ cuts0) as Hperm.
  { rewrite (foldl_placeCut_noTie _ _ _ Hrun). by rewrite sortCutsDesc_Permutation. }
  split; [done|]. split.
  - intros c. rewrite Hperm, filter_app, length_app. done.
  - by rewrite Hperm.
Qed.

(** ** The lengths alone decide the packing *)

Lemma lengthsOf_placeCut (lumberLen : Z) (bins : list Bin) (c : Cut) :
  lengthsOf (placeCut lumberLen bins c)
  = placeLength lumberLen (lengthsOf bins) (value c).
Proof.
  unfold placeCut, placeLength, lengthsOf.
  rewrite <- (list_fmap_compose binLengths).
  change ((λ bin, lumberLen - sumList bin) ∘ binLengths) with (getBinRemainder lumberLen).
  destruct (filter _ _) as [|r rs].
  - by rewrite fmap_app.
  - rewrite <- !list_fmap_compose. apply list_fmap_ext. intros _ bin _. simpl.
    change (lumberLen - sumList (binLengths bin)) with (getBinRemainder lumberLen bin).
    case_decide; [|done]. unfold binLengths. by rewrite fmap_app.
Qed.

Lemma lengthsOf_foldl (lumberLen : Z) (cs : list Cut) (bins : list Bin) :
  lengthsOf (foldl (placeCut lumberLen) bins cs)
  = foldl (placeLength lumberLen) (lengthsOf bins) (value <$> cs).
Proof.
  revert bins. induction cs as [|c cs IH]; intros bins; simpl; [done|].
  by rewrite IH, lengthsOf_placeCut.
Qed.

Lemma StronglySorted_fmap_value (cs : list Cut) :
  StronglySorted (λ a b, value b ≤ value a) cs →
  StronglySorted (λ a b : Z, b ≤ a) (value <$> cs).
Proof.
  induction 1 as [|c cs _ IH Hc]; simpl; constructor; [done|].
  by apply Forall_fmap.
Qed.

Lemma sortCutsDesc_lengths (cs1 cs2 : list Cut) :
  value <$> cs1 ≡ₚ value <$> cs2 →
  value <$> sortCutsDesc cs1 = value <$> sortCutsDesc cs2.
Proof.
  intros Hperm. apply (StronglySorted_unique (λ a b : Z, b ≤ a)).
  - apply StronglySorted_fmap_value, sortCutsDesc_sorted.
  - apply StronglySorted_fmap_value, sortCutsDesc_sorted.
  - by rewrite !sortCutsDesc_Permutation.
Qed.

Lemma solveCuts_lengths (cs1 cs2 : list Cut) (lumberLen : Z) (bins1 bins2 : option (list Bin)) :
  value <$> cs1 ≡ₚ value <$> cs2 →
  lengthsOf (default [[]] bins1) = lengthsOf (default [[]] bins2) →
  lengthsOf (solveCuts cs1 lumberLen bins1) = lengthsOf (solveCuts cs2 lumberLen bins2).
Proof.
  intros Hperm Hbins. unfold solveCuts.
  by rewrite !lengthsOf_foldl, (sortCutsDesc_lengths _ _ Hperm), Hbins.
Qed.

(** [sort] with a comparator that always answers [NaN] moves nothing. *)
Lemma js_sort_NaN {A : Type} (l : list A) : js_sort (λ _ _, None) l = l.
Proof.
  induction l as [|x l IH]; simpl; [done|]. rewrite IH. by destruct l.
Qed.

Lemma sortDesc_reverse (myList : list Cut) : sortDesc myList = reverse myList.
Proof. unfold sortDesc, compareNumbers_obj. by rewrite js_sort_NaN. Qed.

Lemma foldl_concat {A : Type} (a : list A) (rest : list (list A)) :
  foldl (λ a b, a ++ b) a rest = a ++ concat rest.
Proof.
  revert a. induction rest as [|b rest IH]; intros a; simpl.
  - by rewrite app_nil_r.
  - by rewrite IH, (assoc_L (++)).
Qed.

Lemma naiveSolve_lengths (inputs : Inputs) :
  cuts inputs ≠ [] →
  ∃ flat, naiveSolve inputs = Some (solveCuts flat (effectiveLumberLen inputs) None) ∧
          value <$> flat ≡ₚ allLengths inputs.
Proof.
  unfold naiveSolve, allLengths. destruct (cuts inputs) as [|[k vs] rest]; [done|].
  intros _. simpl. eexists. split; [done|].
  rewrite sortDesc_reverse, reverse_Permutation, foldl_concat, fmap_app.
  simpl. rewrite cutsOfPart_values. f_equiv.
  induction rest as [|[k' vs'] rest IH]; simpl; [done|].
  by rewrite fmap_app, cutsOfPart_values, IH.
Qed.

Lemma getProp_nonempty (obj : list (string * list Z)) (key : string) :
  is_Some (getProp obj key) → obj ≠ [].
Proof. intros [v Hv] ->. done. Qed.

(** C9. In [naiveSolve] the part names play no role: two inputs with the
    same usable length whose cut lengths, all parts together, are the same
    multiset give bin lists with the same lengths in the same places,
    whatever the part names are. *)
Theorem part_names_do_not_matter (inputs1 inputs2 : Inputs) :
  is_Some (getProp (cuts inputs1) "false") →
  is_Some (getProp (cuts inputs2) "false") →
  effectiveLumberLen inputs1 = effectiveLumberLen inputs2 →
  allLengths inputs1 ≡ₚ allLengths inputs2 →
  ∃ out1 out2,
    naiveSolve inputs1 = Some out1 ∧ naiveSolve inputs2 = Some out2 ∧
    lengthsOf out1 = lengthsOf out2.
Proof.
  intros H1 H2 HL Hperm.
  destruct (naiveSolve_lengths inputs1) as (flat1 & -> & Hf1);
    [by eapply getProp_nonempty|].
  destruct (naiveSolve_lengths inputs2) as (flat2 & -> & Hf2);
    [by eapply getProp_nonempty|].
  do 2 eexists. split; [done|]. split; [done|].
  rewrite HL. apply solveCuts_lengths; [|done].
  by rewrite Hf1, Hf2.
Qed.

(** ** The two-part scenario *)

(** C8. Parts [partA = [30,30]], [partB = [40]], ungrouped [[10]], usable
    length 96: the parts give the bins [[30,30]] (remainder 36) and [[40]]
    (remainder 56); the merge changes nothing, since the 60 of the first does
    not fit in the 56 left on the second; the cut 10 goes to the bin with
    remainder 36, which is left with 26.  The result is the two bins
    [[30,30,10]] and [[40]], in both revisions of [groupedSolve]. *)
Theorem grouped_scenario :
  let partBins := solveParts 96 (cuts scenarioInputs) in
  partBins = [[mkCut 30 "partA"; mkCut 30 "partA"]; [mkCut 40 "partB"]] ∧
  getBinRemainder 96 <$> partBins = [36; 56] ∧
  ¬ fitsInto 96 [mkCut 30 "partA"; mkCut 30 "partA"] [mkCut 40 "partB"] ∧
  mergeBins 96 partBins = partBins ∧
  groupedSolve scenarioInputs
  = Some [[mkCut 30 "partA"; mkCut 30 "partA"; mkCut 10 "false"]; [mkCut 40 "partB"]] ∧
  groupedSolve_v1 scenarioInputs = groupedSolve scenarioInputs ∧
  (λ out : list Bin, getBinRemainder 96 <$> out) <$> groupedSolve scenarioInputs
  = Some [26; 56].
Proof.
  repeat split; try reflexivity.
  unfold fitsInto, getBinRemainder, sumCutList, sumList. simpl. lia.
Qed.

(** The order in which the three keys are enumerated does not change the
    bins of the scenario. *)
Lemma grouped_scenario_any_order (entries : list (string * list Z)) :
  entries ≡ₚ cuts scenarioInputs →
  ∃ out out1,
    groupedSolve (mkInputs 96 entries) = Some out ∧
    groupedSolve_v1 (mkInputs 96 entries) = Some out1 ∧
    lengthsOf out = [[30; 30; 10]; [40]] ∧
    lengthsOf out1 ≡ₚ [[30; 30; 10]; [40]].
Proof.
  intros Hperm. symmetry in Hperm. apply permutations_Permutation in Hperm.
  vm_compute in Hperm.
  repeat (apply elem_of_cons in Hperm as [-> | Hperm];
          [do 2 eexists; split; [reflexivity|]; split; [reflexivity|];
           split; [reflexivity|]; vm_compute;
           first [reflexivity | apply Permutation_swap] |]).
  by apply elem_of_nil in Hperm.
Qed.

(** ** Board counts of the two strategies *)

Lemma twoFullParts_valid : validInputs twoFullParts.
Proof.
  unfold validInputs, twoFullParts; simpl. split; [lia|]. split.
  - by apply (bool_decide_unpack (NoDup _)).
  - split; [by eexists|]. repeat constructor; lia.
Qed.

(** C7 does not hold as the specification states it: valid inputs on which [naiveSolve] returns three
    bins and [groupedSolve] two. *)
Lemma naive_count_can_exceed_grouped :
  validInputs twoFullParts ∧
  ∃ naive grouped,
    naiveSolve twoFullParts = Some naive ∧
    groupedSolve twoFullParts = Some grouped ∧
    lengthsOf naive = [[3; 3]; [2; 2; 2]; [2]] ∧
    lengthsOf grouped = [[3; 2; 2]; [3; 2; 2]] ∧
    ¬ (length naive ≤ length grouped)%nat.
Proof.
  split; [apply twoFullParts_valid|].
  do 2 eexists. split; [reflexivity|]. split; [reflexivity|].
  split; [reflexivity|]. split; [reflexivity|]. vm_compute. lia.
Qed.

Lemma sortCutsDesc_same_part (key : string) (cs1 cs2 : list Cut) :
  Forall (λ c, partName c = key) cs1 →
  cs1 ≡ₚ cs2 →
  sortCutsDesc cs1 = sortCutsDesc cs2.
Proof.
  intros Hkey Hperm.
  apply (StronglySorted_unique_strong (λ a b, value b ≤ value a));
    [|apply sortCutsDesc_sorted..|by rewrite !sortCutsDesc_Permutation].
  intros [v1 k1] [v2 k2] H1 H2 Hle Hge. simpl in *.
  rewrite sortCutsDesc_Permutation in H1.
  rewrite sortCutsDesc_Permutation, <- Hperm in H2.
  rewrite Forall_forall in Hkey.
  apply Hkey in H1, H2. simpl in *. subst. f_equal. lia.
Qed.

Lemma mergeBins_nil (lumberLen : Z) : mergeBins lumberLen [] = [].
Proof. reflexivity. Qed.

(** C7, as it holds: with no named part and at least one ungrouped cut, the two
    strategies return the same bins, hence the same number of boards. *)
Theorem same_bins_without_parts (lumberLen : Z) (misc : list Z) :
  misc ≠ [] →
  Forall (λ v, v ≤ lumberLen) misc →
  ∃ naive grouped,
    naiveSolve (mkInputs lumberLen [("false", misc)]) = Some naive ∧
    groupedSolve (mkInputs lumberLen [("false", misc)]) = Some grouped ∧
    naive = grouped ∧
    (length naive ≤ length grouped)%nat.
Proof.
  intros Hne Hfit.
  unfold naiveSolve, groupedSolve, solveParts. simpl.
  rewrite mergeBins_nil.
  do 2 eexists. split; [done|]. split; [done|].
  assert (∀ x y : list Bin, x = y → x = y ∧ (length x ≤ length y)%nat) as Hcut.
  { by intros x y ->. }
  apply Hcut. clear Hcut.
  rewrite sortDesc_reverse. unfold solveCuts.
  rewrite (sortCutsDesc_same_part "false" (reverse (cutsOfPart "false" misc))
             (cutsOfPart "false" misc)).
  2:{ rewrite Forall_reverse. by apply Forall_fmap, Forall_true. }
  2:{ apply reverse_Permutation. }
  pose proof (sortCutsDesc_Permutation (cutsOfPart "false" misc)) as Hperm.
  destruct (sortCutsDesc (cutsOfPart "false" misc)) as [|c cs].
  { apply Permutation_nil in Hperm. by destruct misc. }
  simpl. f_equal.
  assert (value c ≤ lumberLen) as Hc.
  { assert (c ∈ cutsOfPart "false" misc) as Hin by (rewrite <- Hperm; left).
    apply list_elem_of_fmap in Hin as (v & -> & Hv). simpl.
    rewrite Forall_forall in Hfit. by apply Hfit. }
  unfold placeCut, getBinRemainder, sumCutList, sumList. simpl.
  rewrite filter_cons_True by lia. simpl.
  unfold minOf. simpl. by rewrite decide_True.
Qed.

(** ** Failure, and the caller's cut list *)

Lemma js_sort_throwing_fmap {A B : Type} (f : A → B)
    (cmpA : A → A → option Z) (cmpB : B → B → option (option Z)) (l : list A) :
  (∀ x y, cmpB (f x) (f y) = Some (cmpA x y)) →
  Dyn.js_sort_throwing cmpB (f <$> l) = Some (f <$> js_sort cmpA l).
Proof.
  intros Hcmp. unfold Dyn.js_sort_throwing, js_sort.
  induction l as [|x l IH]; csimpl; [done|]. rewrite IH. csimpl.
  generalize (foldr (sort_insert cmpA) [] l) as sorted. clear IH.
  induction sorted as [|y sorted IH]; csimpl; [done|].
  unfold sortCompare in *. rewrite Hcmp. case_decide; [done|]. by rewrite IH.
Qed.

Lemma Dyn_filter_typed (cuts0 : list Cut) :
  filter (λ v, v ≠ Dyn.VUndefined) (Dyn.VCut <$> cuts0) = Dyn.VCut <$> cuts0 ∧
  filter (λ v, v = Dyn.VUndefined) (Dyn.VCut <$> cuts0) = [].
Proof.
  induction cuts0 as [|c cs [IH1 IH2]]; csimpl; [done|].
  rewrite filter_cons_True by done. rewrite filter_cons_False by done.
  by rewrite IH1, IH2.
Qed.

Lemma Dyn_sortCutsDesc_typed (cuts0 : list Cut) :
  Dyn.sortCutsDesc (Dyn.VCut <$> cuts0) = Some (Dyn.VCut <$> sortCutsDesc cuts0).
Proof.
  unfold Dyn.sortCutsDesc, Dyn.sortCuts, sortCutsDesc.
  destruct (Dyn_filter_typed cuts0) as [-> ->].
  rewrite (js_sort_throwing_fmap Dyn.VCut (λ a b, Some (value a - value b))) by done.
  csimpl. by rewrite app_nil_r, fmap_reverse.
Qed.

Lemma Dyn_sumCutList_numeric (bin : Bin) :
  Dyn.sumCutList (Dyn.Numeric <$> bin) = Some (sumCutList bin).
Proof.
  unfold Dyn.sumCutList, Dyn.sumList, sumCutList, sumList.
  generalize 0 as acc. induction bin as [|c bin IH]; intros acc; csimpl; [done|].
  apply IH.
Qed.

Lemma Dyn_getBinRemainder_numeric (lumberLen : Z) (bin : Bin) :
  Dyn.getBinRemainder lumberLen (Dyn.Numeric <$> bin)
  = Some (getBinRemainder lumberLen bin).
Proof. unfold Dyn.getBinRemainder. by rewrite Dyn_sumCutList_numeric. Qed.

(** On bins of cuts with numbers, a turn of the loop is [placeCut]. *)
Lemma Dyn_placeCut_numeric (lumberLen : Z) (bins : list Bin) (c : Cut) :
  Dyn.placeCut lumberLen (Dyn.ofBins bins) (Dyn.Numeric c)
  = Dyn.ofBins (placeCut lumberLen bins c).
Proof.
  unfold Dyn.placeCut, placeCut. simpl.
  assert (omap (λ val : option Z,
                  match val with
                  | Some r => if decide (value c ≤ r) then Some r else None
                  | None => None
                  end)
               (Dyn.getBinRemainder lumberLen <$> Dyn.ofBins bins)
          = filter (λ val, value c ≤ val) (getBinRemainder lumberLen <$> bins)) as ->.
  { unfold Dyn.ofBins. induction bins as [|bin bins IH]; csimpl; [done|].
    rewrite Dyn_getBinRemainder_numeric, IH.
    case_decide; [by rewrite filter_cons_True by done
                 | by rewrite filter_cons_False by done]. }
  destruct (filter _ _) as [|r rs].
  - unfold Dyn.ofBins. by rewrite fmap_app.
  - unfold Dyn.ofBins. rewrite <- !list_fmap_compose. apply list_fmap_ext.
    intros _ bin _. simpl. rewrite Dyn_getBinRemainder_numeric.
    destruct (decide (getBinRemainder lumberLen bin = minOf r rs)) as [Heq|Hne].
    + rewrite decide_True by (by rewrite Heq). by rewrite fmap_app.
    + by rewrite decide_False by (by intros [= ?]).
Qed.

Lemma Dyn_placeAll_typed (lumberLen : Z) (cs : list Cut) (bins : list Bin) :
  Dyn.placeAll lumberLen (Dyn.ofBins bins) (Dyn.VCut <$> cs)
  = Dyn.Return (Dyn.ofBins (foldl (placeCut lumberLen) bins cs)).
Proof.
  revert bins. induction cs as [|c cs IH]; intros bins; simpl; [done|].
  rewrite Dyn_placeCut_numeric. apply IH.
Qed.

(** On a list of [Cut]s with numbers the engine is the function
    [solveCuts]. *)
Lemma Dyn_solveCuts_typed (cuts0 : list Cut) (lumberLen : Z) (bins : option (list Bin)) :
  Dyn.solveCuts (Dyn.VCut <$> cuts0) lumberLen bins
  = Dyn.mkOutcome (Dyn.VCut <$> sortCutsDesc cuts0)
                  (Dyn.Return (Dyn.ofBins (solveCuts cuts0 lumberLen bins))).
Proof.
  unfold Dyn.solveCuts. by rewrite Dyn_sortCutsDesc_typed, Dyn_placeAll_typed.
Qed.










(** The check is on the class, not on the length: a [Cut] longer than the
    lumber raises nothing and gets a bin of its own, and so does a [Cut] that
    holds no number. *)
Lemma oversized_cut_is_not_refused :
  Dyn.solveCuts [Dyn.VCut (mkCut 100 "false")] 96 None
  = Dyn.mkOutcome [Dyn.VCut (mkCut 100 "false")]
                  (Dyn.Return [[]; [Dyn.Numeric (mkCut 100 "false")]]) ∧
  Dyn.solveCuts [Dyn.VCutNaN "false"; Dyn.VCut (mkCut 10 "false")] 96 None
  = Dyn.mkOutcome [Dyn.VCut (mkCut 10 "false"); Dyn.VCutNaN "false"]
                  (Dyn.Return [[Dyn.Numeric (mkCut 10 "false")];
                               [Dyn.NotANumber "false"]]).
Proof. split; reflexivity. Qed.

(** C6 does not hold as the specification states it: after the call the
    caller's list [1, 2] reads [2, 1]. *)
Lemma caller_cuts_are_reordered :
  Dyn.cutsAfter
    (Dyn.solveCuts [Dyn.VCut (mkCut 1 "false"); Dyn.VCut (mkCut 2 "false")] 96 None)
  = [Dyn.VCut (mkCut 2 "false"); Dyn.VCut (mkCut 1 "false")] ∧
  Dyn.cutsAfter
    (Dyn.solveCuts [Dyn.VCut (mkCut 1 "false"); Dyn.VCut (mkCut 2 "false")] 96 None)
  ≠ [Dyn.VCut (mkCut 1 "false"); Dyn.VCut (mkCut 2 "false")].
Proof. split; [reflexivity | discriminate]. Qed.

(** C6, as it holds: [solveCuts] sorts the caller's list in place; after the
    call that list holds the same cuts, in descending order of length. *)
Theorem caller_cuts_sorted_in_place
    (cuts0 : list Cut) (lumberLen : Z) (bins : option (list Bin)) :
  Dyn.cutsAfter (Dyn.solveCuts (Dyn.VCut <$> cuts0) lumberLen bins)
  = Dyn.VCut <$> sortCutsDesc cuts0 ∧
  sortCutsDesc cuts0 ≡ₚ cuts0 ∧
  StronglySorted (λ a b, value b ≤ value a) (sortCutsDesc cuts0).
Proof.
  rewrite Dyn_solveCuts_typed. simpl. split; [done|].
  split; [apply sortCutsDesc_Permutation | apply sortCutsDesc_sorted].
Qed.

(** ** The bin list as an object *)

Lemma Heap_readBin_push (h : Heap.heap) (b b' : Heap.ref) (c : Cut) :
  Heap.readBin (Heap.push h b c) b'
  = if decide (b' = b) then Heap.readBin h b ++ [c] else Heap.readBin h b'.
Proof.
  unfold Heap.readBin at 1. unfold Heap.push. simpl.
  case_decide as Hb.
  - subst. by rewrite lookup_insert_eq.
  - by rewrite lookup_insert_ne.
Qed.

Lemma Heap_pushTied_lists (lumberLen m : Z) (c : Cut) (refs : list Heap.ref) (h : Heap.heap) :
  Heap.binLists (Heap.pushTied lumberLen m c h refs) = Heap.binLists h.
Proof.
  revert h. induction refs as [|b refs IH]; intros h; simpl; [done|].
  case_decide; by rewrite IH.
Qed.

Lemma Heap_pushTied_allocated (lumberLen m : Z) (c : Cut) (refs : list Heap.ref)
    (h : Heap.heap) (b : Heap.ref) :
  is_Some (Heap.binArrays h !! b) →
  is_Some (Heap.binArrays (Heap.pushTied lumberLen m c h refs) !! b).
Proof.
  revert h. induction refs as [|b0 refs IH]; intros h Hb; simpl; [done|].
  case_decide; apply IH; [|done].
  unfold Heap.push. simpl. destruct (decide (b = b0)) as [->|].
  - by rewrite lookup_insert_eq.
  - by rewrite lookup_insert_ne.
Qed.

(** Every bin array only grows under [pushTied]. *)
Lemma Heap_pushTied_grows (lumberLen m : Z) (c : Cut) (refs : list Heap.ref)
    (h : Heap.heap) (b : Heap.ref) :
  ∃ added, Heap.readBin (Heap.pushTied lumberLen m c h refs) b = Heap.readBin h b ++ added.
Proof.
  revert h. induction refs as [|b0 refs IH]; intros h; simpl.
  - exists []. by rewrite app_nil_r.
  - case_decide; [|apply IH].
    destruct (IH (Heap.push h b0 c)) as [added ->].
    rewrite Heap_readBin_push. case_decide; [subst|by eexists].
    exists ([c] ++ added). by rewrite (assoc_L (++)).
Qed.

(** On pairwise distinct bin arrays the loop over the tied bins is a [map]. *)
Lemma Heap_pushTied_distinct (lumberLen m : Z) (c : Cut) (refs : list Heap.ref)
    (h : Heap.heap) :
  NoDup refs →
  ∀ b, Heap.readBin (Heap.pushTied lumberLen m c h refs) b
       = if decide (b ∈ refs ∧ Heap.getBinRemainder h lumberLen b = m)
         then Heap.readBin h b ++ [c] else Heap.readBin h b.
Proof.
  intros Hnd. revert h. induction Hnd as [|b0 refs Hb0 _ IH]; intros h b; simpl.
  - done.
  - destruct (decide (Heap.getBinRemainder h lumberLen b0 = m)) as [Hm|Hm].
    + rewrite IH. unfold Heap.getBinRemainder. rewrite !Heap_readBin_push.
      destruct (decide (b = b0)) as [->|Hne].
      * rewrite decide_False by (by intros [? _]).
        rewrite decide_True; [done|]. split; [left | done].
      * apply decide_ext. rewrite elem_of_cons.
        split; [intros [? ?]; by split; [right|] | intros [[?|?] ?]; by split].
    + rewrite IH. apply decide_ext. rewrite elem_of_cons.
      split; [intros [? ?]; by split; [right|]|].
      intros [[->|?] ?]; [done | by split].
Qed.

Lemma Heap_remainders (h : Heap.heap) (lumberLen : Z) (l : Heap.ref) :
  Heap.getBinRemainder h lumberLen <$> Heap.readList h l
  = getBinRemainder lumberLen <$> Heap.contents h l.
Proof. unfold Heap.contents. by rewrite <- list_fmap_compose. Qed.

Lemma Heap_fresh_bin (h : Heap.heap) :
  Heap.binArrays h !! fresh (dom (Heap.binArrays h)) = None.
Proof. apply not_elem_of_dom, is_fresh. Qed.

(** One turn of the loop on the store does to the caller's bin list what
    [placeCut] computes, as long as the bins of that list are distinct
    arrays. *)
Lemma Heap_placeCut_contents (lumberLen : Z) (l : Heap.ref) (h : Heap.heap) (c : Cut) :
  Heap.wellFormed h l →
  Heap.wellFormed (Heap.placeCut lumberLen l h c) l ∧
  Heap.contents (Heap.placeCut lumberLen l h c) l
  = placeCut lumberLen (Heap.contents h l) c.
Proof.
  intros ([refs Hl] & Hnd & Halloc).
  unfold Heap.placeCut, placeCut. rewrite Heap_remainders.
  assert (Heap.readList h l = refs) as Hrefs by (unfold Heap.readList; by rewrite Hl).
  destruct (filter _ _) as [|r rs] eqn:Hf.
  - unfold Heap.newBin, Heap.pushBin. simpl.
    set (b := fresh (dom (Heap.binArrays h))).
    assert (b ∉ refs) as Hfresh.
    { intros Hin. rewrite Hrefs, Forall_forall in Halloc.
      destruct (Halloc _ Hin) as [bin Hbin]. unfold b in Hbin.
      by rewrite Heap_fresh_bin in Hbin. }
    unfold Heap.wellFormed, Heap.contents, Heap.readList, Heap.readBin. simpl.
    rewrite Hl. simpl. rewrite !lookup_insert_eq. simpl.
    split; [split; [by eexists|split]|].
    + apply NoDup_app. rewrite Hrefs in Hnd. split; [done|]. split; [|apply NoDup_singleton].
      intros x Hx Hx'. apply list_elem_of_singleton in Hx'. by subst.
    + apply Forall_app. split.
      * rewrite Hrefs in Halloc. eapply Forall_impl; [exact Halloc|].
        intros x Hx. simpl. destruct (decide (x = b)) as [->|].
        -- by rewrite lookup_insert_eq.
        -- by rewrite lookup_insert_ne.
      * repeat constructor. by rewrite lookup_insert_eq.
    + rewrite fmap_app. simpl. rewrite lookup_insert_eq. simpl. f_equal.
      apply list_fmap_ext. intros i x Hx. apply list_elem_of_lookup_2 in Hx.
      rewrite lookup_insert_ne; [done|]. intros Heq. apply Hfresh. by rewrite Heq.
  - split.
    + unfold Heap.wellFormed, Heap.readList. rewrite Heap_pushTied_lists, Hl. simpl.
      split; [by eexists|]. rewrite Hrefs in Hnd, Halloc. split; [done|].
      eapply Forall_impl; [exact Halloc|]. intros x Hx.
      by apply Heap_pushTied_allocated.
    + unfold Heap.contents at 1. unfold Heap.readList.
      rewrite Heap_pushTied_lists. fold (Heap.readList h l).
      unfold Heap.contents. rewrite <- list_fmap_compose.
      apply list_fmap_ext. intros i x Hx. apply list_elem_of_lookup_2 in Hx.
      rewrite Heap_pushTied_distinct by done. simpl.
      apply decide_ext. unfold Heap.getBinRemainder, getBinRemainder.
      split; [by intros [_ ?] | by intros ?; split].
Qed.

Lemma Heap_foldl_contents (lumberLen : Z) (l : Heap.ref) (cs : list Cut) (h : Heap.heap) :
  Heap.wellFormed h l →
  Heap.contents (foldl (Heap.placeCut lumberLen l) h cs) l
  = foldl (placeCut lumberLen) (Heap.contents h l) cs.
Proof.
  revert h. induction cs as [|c cs IH]; intros h Hwf; simpl; [done|].
  destruct (Heap_placeCut_contents lumberLen l h c Hwf) as [Hwf' Heq].
  by rewrite IH, Heq.
Qed.

(** A turn of the loop only appends: to the caller's bin list, and to the
    bin arrays that exist. *)
Lemma Heap_placeCut_grows (lumberLen : Z) (l : Heap.ref) (h : Heap.heap) (c : Cut) :
  (∃ more, Heap.readList (Heap.placeCut lumberLen l h c) l = Heap.readList h l ++ more) ∧
  ∀ b, is_Some (Heap.binArrays h !! b) →
       is_Some (Heap.binArrays (Heap.placeCut lumberLen l h c) !! b) ∧
       ∃ added, Heap.readBin (Heap.placeCut lumberLen l h c) b = Heap.readBin h b ++ added.
Proof.
  unfold Heap.placeCut. destruct (filter _ _) as [|r rs].
  - unfold Heap.newBin, Heap.pushBin, Heap.readList, Heap.readBin. simpl. split.
    + rewrite lookup_insert_eq. simpl. by eexists.
    + intros b Hb. assert (fresh (dom (Heap.binArrays h)) ≠ b) as Hne.
      { intros <-. rewrite Heap_fresh_bin in Hb. by destruct Hb. }
      rewrite lookup_insert_ne by done. split; [done|].
      exists []. by rewrite app_nil_r.
  - split.
    + exists []. unfold Heap.readList. by rewrite Heap_pushTied_lists, app_nil_r.
    + intros b Hb. split; [by apply Heap_pushTied_allocated|].
      apply Heap_pushTied_grows.
Qed.

Lemma Heap_foldl_grows (lumberLen : Z) (l : Heap.ref) (cs : list Cut) (h : Heap.heap) :
  (∃ more, Heap.readList (foldl (Heap.placeCut lumberLen l) h cs) l
           = Heap.readList h l ++ more) ∧
  ∀ b, is_Some (Heap.binArrays h !! b) →
       ∃ added, Heap.readBin (foldl (Heap.placeCut lumberLen l) h cs) b
                = Heap.readBin h b ++ added.
Proof.
  revert h. induction cs as [|c cs IH]; intros h; simpl.
  - split; [|intros b _]; exists []; by rewrite app_nil_r.
  - destruct (Heap_placeCut_grows lumberLen l h c) as [[more1 Hl1] Hb1].
    destruct (IH (Heap.placeCut lumberLen l h c)) as [[more2 Hl2] Hb2].
    split.
    + exists (more1 ++ more2). by rewrite Hl2, Hl1, (assoc_L (++)).
    + intros b Hb. destruct (Hb1 b Hb) as [Hb' [added1 Ha1]].
      destruct (Hb2 b Hb') as [added2 Ha2].
      exists (added1 ++ added2). by rewrite Ha2, Ha1, (assoc_L (++)).
Qed.

(** C10. Called with a bin list, [solveCuts] returns that very list object:
    the reference returned is the reference passed; in the store after the
    call the caller's list holds what [solveCuts] computes from its former
    content; it has kept its bins and gained the new ones at its end, and
    each bin array the caller had has kept its cuts and gained the cuts
    placed in it. *)
Theorem existing_bins_mutated_in_place
    (cuts0 : list Cut) (lumberLen : Z) (l : Heap.ref) (h : Heap.heap) :
  Heap.wellFormed h l →
  (Heap.solveCuts cuts0 lumberLen (Some l) h).1 = l ∧
  Heap.contents (Heap.solveCuts cuts0 lumberLen (Some l) h).2 l
  = solveCuts cuts0 lumberLen (Some (Heap.contents h l)) ∧
  (∃ newBins, Heap.readList (Heap.solveCuts cuts0 lumberLen (Some l) h).2 l
              = Heap.readList h l ++ newBins) ∧
  Forall (λ b, ∃ added, Heap.readBin (Heap.solveCuts cuts0 lumberLen (Some l) h).2 b
                        = Heap.readBin h b ++ added)
         (Heap.readList h l).
Proof.
  intros Hwf. unfold Heap.solveCuts. simpl. split; [done|]. split.
  - by apply Heap_foldl_contents.
  - destruct (Heap_foldl_grows lumberLen l (sortCutsDesc cuts0) h) as [Hlist Hbins].
    split; [done|]. destruct Hwf as (_ & _ & Halloc).
    eapply Forall_impl; [exact Halloc|]. intros b Hb. by apply Hbins.
Qed.

(** Without a bin list the result is a new list object. *)
Lemma Heap_solveCuts_new_list (cuts0 : list Cut) (lumberLen : Z) (h : Heap.heap) :
  Heap.binLists h !! (Heap.solveCuts cuts0 lumberLen None h).1 = None.
Proof. unfold Heap.solveCuts. simpl. apply not_elem_of_dom, is_fresh. Qed.

(** Without a bin list the engine works on a new list that holds one new,
    empty bin, and the list it returns reads as [solveCuts] computes it. *)
Lemma Heap_solveCuts_contents_new (cuts0 : list Cut) (lumberLen : Z) (h : Heap.heap) :
  Heap.contents (Heap.solveCuts cuts0 lumberLen None h).2
                (Heap.solveCuts cuts0 lumberLen None h).1
  = solveCuts cuts0 lumberLen None.
Proof.
  unfold Heap.solveCuts, Heap.newBin, Heap.newList. simpl.
  set (b := fresh (dom (Heap.binArrays h))).
  set (l := fresh (dom (Heap.binLists h))).
  rewrite Heap_foldl_contents.
  - unfold solveCuts, Heap.contents, Heap.readList, Heap.readBin. simpl.
    rewrite lookup_insert_eq. simpl. by rewrite lookup_insert_eq.
  - unfold Heap.wellFormed, Heap.readList. simpl. rewrite lookup_insert_eq. simpl.
    split; [by eexists|]. split; [apply NoDup_singleton|].
    repeat constructor. by rewrite lookup_insert_eq.
Qed.

(** Capacity holds on the store whatever the caller's list looks like, also
    when it holds one bin array twice: a push happens only where the
    remainder read at that moment has room for the cut. *)
Lemma Heap_pushTied_fits (lumberLen m : Z) (c : Cut) (refs : list Heap.ref) (h : Heap.heap) :
  value c ≤ m →
  (∀ b, fits lumberLen (Heap.readBin h b)) →
  ∀ b, fits lumberLen (Heap.readBin (Heap.pushTied lumberLen m c h refs) b).
Proof.
  intros Hm. revert h. induction refs as [|b0 refs IH]; intros h Hfits; simpl; [done|].
  case_decide as Hrem; apply IH; [|done].
  intros b. rewrite Heap_readBin_push. case_decide; [|done].
  unfold fits, Heap.getBinRemainder in *. rewrite sumCutList_snoc. lia.
Qed.

Lemma Heap_placeCut_fits (lumberLen : Z) (l : Heap.ref) (h : Heap.heap) (c : Cut) :
  value c ≤ lumberLen →
  (∀ b, fits lumberLen (Heap.readBin h b)) →
  ∀ b, fits lumberLen (Heap.readBin (Heap.placeCut lumberLen l h c) b).
Proof.
  intros Hc Hfits. unfold Heap.placeCut.
  destruct (filter _ _) as [|r rs] eqn:Hf.
  - intros b. unfold Heap.newBin, Heap.pushBin, Heap.readBin. simpl.
    destruct (decide (b = fresh (dom (Heap.binArrays h)))) as [->|Hne].
    + rewrite lookup_insert_eq. simpl. unfold fits, sumCutList, sumList. simpl. lia.
    + rewrite lookup_insert_ne by done. apply Hfits.
  - apply Heap_pushTied_fits; [|done].
    pose proof (minOf_elem r rs) as Hin. rewrite <- Hf in Hin.
    by apply list_elem_of_filter in Hin as [Hge _].
Qed.

Lemma Heap_solveCuts_fits (cuts0 : list Cut) (lumberLen : Z) (l : Heap.ref) (h : Heap.heap) :
  Forall (λ c, value c ≤ lumberLen) cuts0 →
  (∀ b, fits lumberLen (Heap.readBin h b)) →
  Forall (fits lumberLen) (Heap.contents (Heap.solveCuts cuts0 lumberLen (Some l) h).2 l).
Proof.
  intros Hcuts Hfits. unfold Heap.solveCuts. simpl.
  apply Forall_fmap, Forall_true. simpl.
  rewrite <- sortCutsDesc_Permutation in Hcuts.
  revert h Hfits. induction Hcuts as [|c cs Hc _ IH]; intros h Hfits b; simpl; [done|].
  apply IH. by apply Heap_placeCut_fits.
Qed.

(** ** The statements at concrete inputs *)


Lemma tied_bins_all_receive_witness :
  placeCut 10 (binsBefore 10 None [mkCut 6 "false"; mkCut 6 "false"]) (mkCut 4 "false")
    !! 0%nat = Some ([mkCut 6 "false"] ++ [mkCut 4 "false"]) ∧
  placeCut 10 (binsBefore 10 None [mkCut 6 "false"; mkCut 6 "false"]) (mkCut 4 "false")
    !! 1%nat = Some ([mkCut 6 "false"] ++ [mkCut 4 "false"]) ∧
  solveCuts tieCuts 10 None
  = foldl (placeCut 10)
      (placeCut 10 (binsBefore 10 None [mkCut 6 "false"; mkCut 6 "false"])
         (mkCut 4 "false")) [].
Proof.
  apply (tied_bins_all_receive tieCuts 10 None
           [mkCut 6 "false"; mkCut 6 "false"] (mkCut 4 "false") [] 0 1).
  - reflexivity.
  - lia.
  - reflexivity.
  - reflexivity.
  - unfold getBinRemainder, sumCutList, sumList. simpl. lia.
  - reflexivity.
  - repeat constructor; unfold getBinRemainder, sumCutList, sumList; simpl; lia.
Defined.

Lemma complete_without_ties_witness :
  concat (solveCuts halves 96 None) ≡ₚ concat (default [[]] None) ++ halves ∧
  (∀ c : Cut,
     length (filter (λ x, x = c) (concat (solveCuts halves 96 None)))
     = (length (filter (λ x, x = c) (concat (default [[]] None)))
        + length (filter (λ x, x = c) halves))%nat) ∧
  (NoDup (concat (default [[]] None) ++ halves) →
   NoDup (concat (solveCuts halves 96 None))).
Proof.
  apply complete_without_ties.
  vm_compute. repeat split; repeat constructor.
Defined.

Lemma same_bins_without_parts_witness :
  ∃ naive grouped,
    naiveSolve (mkInputs 96 [("false", [48; 48; 48])]) = Some naive ∧
    groupedSolve (mkInputs 96 [("false", [48; 48; 48])]) = Some grouped ∧
    naive = grouped ∧
    (length naive ≤ length grouped)%nat.
Proof.
  apply same_bins_without_parts.
  - discriminate.
  - repeat constructor; lia.
Defined.

Lemma part_names_do_not_matter_witness :
  ∃ out1 out2,
    naiveSolve scenarioInputs = Some out1 ∧ naiveSolve regroupedInputs = Some out2 ∧
    lengthsOf out1 = lengthsOf out2.
Proof.
  apply part_names_do_not_matter.
  - by eexists.
  - by eexists.
  - reflexivity.
  - by apply (bool_decide_unpack (_ ≡ₚ _)).
Defined.

Lemma twoBinStore_wellFormed : Heap.wellFormed twoBinStore 0.
Proof.
  unfold Heap.wellFormed, Heap.readList, twoBinStore. simpl.
  rewrite lookup_insert_eq. simpl. split; [by eexists|]. split.
  - by apply (bool_decide_unpack (NoDup _)).
  - repeat constructor.
    + rewrite lookup_insert_eq. by eexists.
    + rewrite lookup_insert_ne by done. rewrite lookup_insert_eq. by eexists.
Qed.

Lemma existing_bins_mutated_in_place_witness :
  (Heap.solveCuts [mkCut 10 "false"] 96 (Some 0%nat) twoBinStore).1 = 0%nat ∧
  Heap.contents (Heap.solveCuts [mkCut 10 "false"] 96 (Some 0%nat) twoBinStore).2 0
  = solveCuts [mkCut 10 "false"] 96 (Some (Heap.contents twoBinStore 0)) ∧
  (∃ newBins,
     Heap.readList (Heap.solveCuts [mkCut 10 "false"] 96 (Some 0%nat) twoBinStore).2 0
     = Heap.readList twoBinStore 0 ++ newBins) ∧
  Forall (λ b, ∃ added,
            Heap.readBin (Heap.solveCuts [mkCut 10 "false"] 96 (Some 0%nat) twoBinStore).2 b
            = Heap.readBin twoBinStore b ++ added)
         (Heap.readList twoBinStore 0).
Proof. apply existing_bins_mutated_in_place, twoBinStore_wellFormed. Defined.

(** The store after the call, read through the caller's reference. *)
Example twoBinStore_after :
  Heap.contents (Heap.solveCuts [mkCut 10 "false"] 96 (Some 0%nat) twoBinStore).2 0
  = [[mkCut 30 "partA"; mkCut 30 "partA"; mkCut 10 "false"]; [mkCut 40 "partB"]].
Proof. by vm_compute. Qed.

(** Best fit is not first fit: with bins left with 5 and 3, a cut of 3 goes
    to the second. *)
Example best_fit_is_not_first_fit :
  placeCut 10 [[mkCut 5 "false"]; [mkCut 7 "false"]] (mkCut 3 "false")
  = [[mkCut 5 "false"]; [mkCut 7 "false"; mkCut 3 "false"]].
Proof. reflexivity. Qed.

(** The other way round: inputs on which [groupedSolve] needs three boards
    and [naiveSolve] two. *)
Example grouped_count_can_exceed_naive :
  (λ out, lengthsOf out) <$> naiveSolve threeParts = Some [[61; 39]; [60; 40]] ∧
  (λ out, lengthsOf out) <$> groupedSolve threeParts = Some [[40; 39]; [61]; [60]].
Proof. split; reflexivity. Qed.

(** The tie of [tieCuts]: the cut 4 ends up in both bins. *)
Example tie_duplicates_the_cut :
  lengthsOf (solveCuts tieCuts 10 None) = [[6; 4]; [6; 4]].
Proof. reflexivity. Qed.

(** * Further properties of the engine *)

(** ** What a run keeps *)

Lemma placeCut_tied_nonempty (lumberLen : Z) (bins : list Bin) (c : Cut) r rs :
  filter (λ val, value c ≤ val) (getBinRemainder lumberLen <$> bins) = r :: rs →
  (0 < length (filter (λ bin, getBinRemainder lumberLen bin = minOf r rs) bins))%nat.
Proof.
  intros Hf. apply usable_remainder in Hf as (_ & (bin & Hbin & Hrem) & _).
  assert (bin ∈ filter (λ b, getBinRemainder lumberLen b = minOf r rs) bins) as Hin.
  { by apply list_elem_of_filter. }
  destruct (filter _ bins); [by inv Hin | simpl; lia].
Qed.

(** A turn of the loop keeps every cut the bins hold and places the new one
    at least once. *)
Lemma placeCut_keeps (lumberLen : Z) (bins : list Bin) (c : Cut) :
  concat bins ++ [c] ⊆+ concat (placeCut lumberLen bins c).
Proof.
  unfold placeCut. destruct (filter _ (_ <$> _)) as [|r rs] eqn:Hf.
  - rewrite concat_app. done.
  - rewrite concat_push_where. apply submseteq_skips_l.
    pose proof (placeCut_tied_nonempty _ _ _ _ _ Hf) as Hpos.
    destruct (length _) as [|n]; [lia|]. simpl.
    apply submseteq_skip, submseteq_nil_l.
Qed.

(** A turn of the loop puts nothing but the new cut into the bins. *)
Lemma placeCut_only (lumberLen : Z) (bins : list Bin) (c x : Cut) :
  x ∈ concat (placeCut lumberLen bins c) → x ∈ concat bins ∨ x = c.
Proof.
  unfold placeCut. destruct (filter _ (_ <$> _)) as [|r rs] eqn:Hf.
  - rewrite concat_app, elem_of_app. simpl. rewrite list_elem_of_singleton.
    tauto.
  - rewrite concat_push_where, elem_of_app. intros [?|Hx]; [by left|].
    right. by apply elem_of_replicate_inv in Hx.
Qed.

Lemma foldl_placeCut_keeps (lumberLen : Z) (cs : list Cut) (bins : list Bin) :
  concat bins ++ cs ⊆+ concat (foldl (placeCut lumberLen) bins cs).
Proof.
  revert bins. induction cs as [|c cs IH]; intros bins; simpl.
  - by rewrite app_nil_r.
  - etrans; [|apply IH].
    rewrite (assoc_L (++) _ [c] cs). by apply submseteq_skips_r, placeCut_keeps.
Qed.

Lemma foldl_placeCut_only (lumberLen : Z) (cs : list Cut) (bins : list Bin) (x : Cut) :
  x ∈ concat (foldl (placeCut lumberLen) bins cs) → x ∈ concat bins ∨ x ∈ cs.
Proof.
  revert bins. induction cs as [|c cs IH]; intros bins; simpl; [by left|].
  intros Hx. destruct (IH _ Hx) as [Hx'|?]; [|right; by right].
  destruct (placeCut_only _ _ _ _ Hx') as [?| ->]; [by left | right; left].
Qed.

Lemma solveCuts_keeps (cuts0 : list Cut) (lumberLen : Z) (bins : option (list Bin)) :
  concat (default [[]] bins) ++ cuts0 ⊆+ concat (solveCuts cuts0 lumberLen bins).
Proof.
  unfold solveCuts. etrans; [|apply foldl_placeCut_keeps].
  apply submseteq_skips_l, Permutation_submseteq. by rewrite sortCutsDesc_Permutation.
Qed.

Lemma solveCuts_only (cuts0 : list Cut) (lumberLen : Z) (bins : option (list Bin)) (x : Cut) :
  x ∈ concat (solveCuts cuts0 lumberLen bins) →
  x ∈ concat (default [[]] bins) ∨ x ∈ cuts0.
Proof.
  unfold solveCuts. intros Hx. apply foldl_placeCut_only in Hx as [?|Hx]; [by left|].
  right. by rewrite sortCutsDesc_Permutation in Hx.
Qed.

(** X1. Whatever the ties, [solveCuts] loses no cut and invents none: the
    cuts of the bins on entry and the input cuts are all in the returned
    bins, with at least their multiplicity, and every cut of a returned bin is
    one of them. *)
Theorem solveCuts_loses_and_invents_nothing
    (cuts0 : list Cut) (lumberLen : Z) (bins : option (list Bin)) :
  concat (default [[]] bins) ++ cuts0 ⊆+ concat (solveCuts cuts0 lumberLen bins) ∧
  ∀ x : Cut, x ∈ concat (solveCuts cuts0 lumberLen bins) ↔
             x ∈ concat (default [[]] bins) ∨ x ∈ cuts0.
Proof.
  split; [apply solveCuts_keeps|]. intros x. split; [apply solveCuts_only|].
  intros Hx. eapply elem_of_submseteq; [|apply solveCuts_keeps].
  by apply elem_of_app.
Qed.

(** ** How many bins *)

Lemma placeCut_length (lumberLen : Z) (bins : list Bin) (c : Cut) :
  (length bins ≤ length (placeCut lumberLen bins c) ≤ S (length bins))%nat.
Proof.
  unfold placeCut. destruct (filter _ _).
  - rewrite length_app. simpl. lia.
  - rewrite length_fmap. lia.
Qed.

Lemma foldl_placeCut_length (lumberLen : Z) (cs : list Cut) (bins : list Bin) :
  (length bins ≤ length (foldl (placeCut lumberLen) bins cs)
   ≤ length bins + length cs)%nat.
Proof.
  revert bins. induction cs as [|c cs IH]; intros bins; simpl; [lia|].
  pose proof (IH (placeCut lumberLen bins c)).
  pose proof (placeCut_length lumberLen bins c). lia.
Qed.

(** X2. [solveCuts] never removes a bin and opens at most one new bin per
    cut. *)
Theorem solveCuts_bin_count
    (cuts0 : list Cut) (lumberLen : Z) (bins : option (list Bin)) :
  (length (default [[]] bins) ≤ length (solveCuts cuts0 lumberLen bins)
   ≤ length (default [[]] bins) + length cuts0)%nat.
Proof.
  unfold solveCuts.
  pose proof (foldl_placeCut_length lumberLen (sortCutsDesc cuts0) (default [[]] bins)) as H.
  by rewrite (Permutation_length (sortCutsDesc_Permutation cuts0)) in H.
Qed.

(** ** The order among cuts of one length *)

(** X3. The sort of [solveCuts] is stable and then reversed: cuts of the same
    length are placed in the reverse of the order they were given in.  In
    [naiveSolve], where [sortDesc] has reversed the list before, they are
    placed in the order of the flattened list. *)
Theorem equal_lengths_order (cuts0 : list Cut) (k : Z) :
  filter (λ c, value c = k) (sortCutsDesc cuts0)
  = reverse (filter (λ c, value c = k) cuts0) ∧
  filter (λ c, value c = k) (sortCutsDesc (sortDesc cuts0))
  = filter (λ c, value c = k) cuts0.
Proof.
  assert (∀ cs, filter (λ c, value c = k) (sortCutsDesc cs)
                = reverse (filter (λ c, value c = k) cs)) as Hrev.
  { intros cs. unfold sortCutsDesc. rewrite filter_reverse. f_equal.
    apply (js_sort_stable value). }
  split; [apply Hrev|].
  by rewrite Hrev, sortDesc_reverse, filter_reverse, reverse_involutive.
Qed.

(** ** A cut longer than the lumber *)

Lemma sumCutList_singleton (c : Cut) : sumCutList [c] = value c.
Proof. unfold sumCutList, sumList. simpl. lia. Qed.

Lemma placeCut_sums_nonneg (lumberLen : Z) (bins : list Bin) (c : Cut) :
  0 ≤ value c →
  Forall (λ b, 0 ≤ sumCutList b) bins →
  Forall (λ b, 0 ≤ sumCutList b) (placeCut lumberLen bins c).
Proof.
  intros Hc Hbins. unfold placeCut. destruct (filter _ _).
  - apply Forall_app. split; [done|]. repeat constructor.
    by rewrite sumCutList_singleton.
  - apply Forall_fmap. eapply Forall_impl; [exact Hbins|]. intros b Hb. simpl in *.
    case_decide; [|done]. rewrite sumCutList_snoc. lia.
Qed.

Lemma placeCut_oversized (lumberLen : Z) (bins : list Bin) (c : Cut) :
  lumberLen < value c →
  Forall (λ b, 0 ≤ sumCutList b) bins →
  placeCut lumberLen bins c = bins ++ [[c]].
Proof.
  intros Hc Hbins.
  destruct (placeCut_cases lumberLen bins c)
    as [[_ Heq]|(m & (Hm & (bin & Hbin & Hrem) & _) & _)]; [done|].
  rewrite Forall_forall in Hbins. specialize (Hbins _ Hbin).
  unfold getBinRemainder in Hrem. lia.
Qed.

Lemma placeCut_leaves_oversized (lumberLen : Z) (bins : list Bin) (c c' : Cut) :
  lumberLen < value c → 0 ≤ value c' →
  [c] ∈ bins → [c] ∈ placeCut lumberLen bins c'.
Proof.
  intros Hc Hc' Hin.
  destruct (placeCut_cases lumberLen bins c')
    as [[_ ->]|(m & (Hm & _ & _) & ->)].
  - apply elem_of_app. by left.
  - apply list_elem_of_fmap. exists [c]. split; [|done].
    rewrite decide_False; [done|].
    unfold getBinRemainder. rewrite sumCutList_singleton. lia.
Qed.

Lemma foldl_placeCut_leaves_oversized (lumberLen : Z) (cs : list Cut)
    (bins : list Bin) (c : Cut) :
  lumberLen < value c → Forall (λ c', 0 ≤ value c') cs →
  [c] ∈ bins → [c] ∈ foldl (placeCut lumberLen) bins cs.
Proof.
  intros Hc Hcs. revert bins. induction Hcs as [|c' cs Hc' _ IH]; intros bins Hin; simpl.
  - done.
  - by apply IH, placeCut_leaves_oversized.
Qed.

Lemma foldl_placeCut_sums_nonneg (lumberLen : Z) (cs : list Cut) (bins : list Bin) :
  Forall (λ c, 0 ≤ value c) cs →
  Forall (λ b, 0 ≤ sumCutList b) bins →
  Forall (λ b, 0 ≤ sumCutList b) (foldl (placeCut lumberLen) bins cs).
Proof.
  intros Hcs. revert bins. induction Hcs as [|c cs Hc _ IH]; intros bins Hbins; simpl.
  - done.
  - by apply IH, placeCut_sums_nonneg.
Qed.

(** X4. The engine does not refuse a cut that is longer than the lumber: it
    opens a bin for it, nothing else is ever put in that bin, and the bin list
    returned breaks the capacity bound. *)
Theorem oversized_cut_gets_a_bin_alone
    (cuts0 : list Cut) (lumberLen : Z) (bins : option (list Bin)) (c : Cut) :
  Forall (λ c', 0 ≤ value c') cuts0 →
  Forall (λ b, 0 ≤ sumCutList b) (default [[]] bins) →
  c ∈ cuts0 →
  lumberLen < value c →
  [c] ∈ solveCuts cuts0 lumberLen bins ∧
  ¬ Forall (λ bin, sumCutList bin ≤ lumberLen) (solveCuts cuts0 lumberLen bins).
Proof.
  intros Hcuts Hbins Hin Hc.
  assert ([c] ∈ solveCuts cuts0 lumberLen bins) as Halone.
  { unfold solveCuts.
    rewrite <- sortCutsDesc_Permutation in Hin, Hcuts.
    apply list_elem_of_split in Hin as (pre & post & Hsplit).
    rewrite Hsplit in Hcuts |- *.
    apply Forall_app in Hcuts as [Hpre Hpost]. inv Hpost.
    rewrite foldl_app. simpl.
    apply foldl_placeCut_leaves_oversized; [done..|].
    rewrite placeCut_oversized; [|done|by apply foldl_placeCut_sums_nonneg].
    apply elem_of_app. right. left. }
  split; [done|]. intros Hall. rewrite Forall_forall in Hall.
  specialize (Hall _ Halone). rewrite sumCutList_singleton in Hall. lia.
Qed.

Lemma oversized_cut_gets_a_bin_alone_witness :
  [mkCut 100 "false"] ∈ solveCuts oversizedCuts 96 None ∧
  ¬ Forall (λ bin, sumCutList bin ≤ 96) (solveCuts oversizedCuts 96 None).
Proof.
  apply oversized_cut_gets_a_bin_alone.
  - repeat constructor; simpl; lia.
  - repeat constructor. unfold sumCutList, sumList. simpl. lia.
  - right. left.
  - simpl. lia.
Defined.

(** ** The merge phase *)

Lemma mergeScan_length (lumberLen : Z) (bin : Bin) (i : nat) (bins : list Bin) (j : nat) :
  (length (mergeScan lumberLen bin i bins j) ≤ length bins)%nat.
Proof.
  funelim (mergeScan lumberLen bin i bins j); [lia| |done].
  rewrite length_delete, length_insert; [lia|].
  apply lookup_lt_is_Some. by rewrite length_insert.
Qed.

Lemma mergeLoop_length (lumberLen : Z) (bins : list Bin) (i : nat) :
  (length (mergeLoop lumberLen bins i) ≤ length bins)%nat.
Proof.
  funelim (mergeLoop lumberLen bins i); [|lia].
  pose proof (mergeScan_length lumberLen (bins !!! i) i bins (S i)). lia.
Qed.

Lemma concat_merge_at (bins : list Bin) (i j : nat) (bin bin2 : Bin) :
  (i < j)%nat → bins !! i = Some bin → bins !! j = Some bin2 →
  concat (delete j (<[i := bin ++ bin2]> bins)) ≡ₚ concat bins.
Proof.
  intros Hij Hi Hj.
  assert (<[i := bin ++ bin2]> bins !! j = Some bin2) as Hj'.
  { rewrite list_lookup_insert_ne by lia. done. }
  apply delete_Permutation in Hj'.
  assert (i < length bins)%nat as Hlen by (by eapply lookup_lt_Some).
  assert (concat (<[i := bin ++ bin2]> bins) ≡ₚ bin2 ++ concat bins) as Hall.
  { rewrite insert_take_drop by done.
    rewrite <- (take_drop_middle bins i bin Hi) at 3.
    rewrite !concat_app. simpl. solve_Permutation. }
  assert (concat (<[i := bin ++ bin2]> bins)
          ≡ₚ concat (bin2 :: delete j (<[i := bin ++ bin2]> bins))) as Hsplit.
  { by f_equiv. }
  apply (Permutation_app_inv_l bin2). by rewrite <- Hall, Hsplit.
Qed.

Lemma mergeScan_concat (lumberLen : Z) (bin : Bin) (i : nat) (bins : list Bin) (j : nat) :
  (i < j)%nat → bins !! i = Some bin →
  concat (mergeScan lumberLen bin i bins j) ≡ₚ concat bins.
Proof.
  funelim (mergeScan lumberLen bin i bins j); intros Hij Hi; [done| |].
  - apply concat_merge_at; [done..|]. by apply list_lookup_lookup_total_lt.
  - match goal with IH : _ → _ → concat _ ≡ₚ _ |- _ => apply IH; [lia | done] end.
Qed.

Lemma mergeLoop_concat (lumberLen : Z) (bins : list Bin) (i : nat) :
  concat (mergeLoop lumberLen bins i) ≡ₚ concat bins.
Proof.
  funelim (mergeLoop lumberLen bins i); [|done].
  match goal with IH : concat _ ≡ₚ _ |- _ => rewrite IH end.
  apply mergeScan_concat; [lia|]. apply list_lookup_lookup_total_lt. lia.
Qed.

(** X5. The merge phase of [groupedSolve] moves cuts from bin to bin and
    nothing else: the merged bins hold the cuts of the bins it was given, each
    as often as before, and they are no more than before. *)
Theorem merge_keeps_the_cuts (lumberLen : Z) (bins : list Bin) :
  concat (mergeBins lumberLen bins) ≡ₚ concat bins ∧
  (length (mergeBins lumberLen bins) ≤ length bins)%nat.
Proof.
  unfold mergeBins. split.
  - rewrite mergeLoop_concat. by rewrite sortBinsDesc_Permutation.
  - etrans; [apply mergeLoop_length|].
    by rewrite (Permutation_length (sortBinsDesc_Permutation bins)).
Qed.

(** ** The bins of the parts *)

Lemma elem_of_concat {A : Type} (x : A) (ls : list (list A)) :
  x ∈ concat ls ↔ ∃ l, x ∈ l ∧ l ∈ ls.
Proof.
  induction ls as [|l ls IH]; simpl.
  - split; [by intros Hx; inv Hx | by intros (l & _ & Hl); inv Hl].
  - rewrite elem_of_app, IH. split.
    + intros [Hx|(l' & Hx & Hl')]; [exists l; split; [done | left]|].
      exists l'. split; [done | by right].
    + intros (l' & Hx & Hl'). apply elem_of_cons in Hl' as [->|Hl']; [by left|].
      right. by exists l'.
Qed.

Lemma solveParts_bins (lumberLen : Z) (entries : list (string * list Z))
    (acc : list Bin) (bin : Bin) :
  bin ∈ foldl (λ bins entry,
                 if decide (entry.1 = "false") then bins
                 else bins ++ solveCuts (cutsOfPart entry.1 entry.2) lumberLen None)
              acc entries →
  bin ∈ acc ∨
  ∃ entry, entry ∈ entries ∧ entry.1 ≠ "false" ∧
           bin ∈ solveCuts (cutsOfPart entry.1 entry.2) lumberLen None.
Proof.
  revert acc. induction entries as [|entry entries IH]; intros acc; simpl; [by left|].
  intros Hbin. apply IH in Hbin as [Hbin|(e & He & Hne & Hbin)].
  - case_decide as Hk; [by left|].
    apply elem_of_app in Hbin as [?|Hbin]; [by left|].
    right. exists entry. split; [left | done].
  - right. exists e. split; [by right | done].
Qed.

(** X6. After the first loop of [groupedSolve] every bin holds cuts of one
    named part only, and never an ungrouped cut. *)
Theorem part_bins_hold_one_part (lumberLen : Z) (entries : list (string * list Z)) :
  Forall (λ bin, ∃ name, name ∈ entries.*1 ∧ name ≠ "false" ∧
                         Forall (λ c, partName c = name) bin)
         (solveParts lumberLen entries).
Proof.
  apply Forall_forall. intros bin Hbin.
  apply solveParts_bins in Hbin as [Hbin|(entry & He & Hne & Hbin)]; [by inv Hbin|].
  exists entry.1. split; [by apply list_elem_of_fmap_2|]. split; [done|].
  apply Forall_forall. intros c Hc.
  assert (c ∈ concat (solveCuts (cutsOfPart entry.1 entry.2) lumberLen None)) as Hin.
  { apply elem_of_concat. by exists bin. }
  apply solveCuts_only in Hin as [Hin|Hin]; [by inv Hin|].
  by apply list_elem_of_fmap in Hin as (v & -> & _).
Qed.

(** ** The strategies and the cuts of the inputs *)

Lemma solveParts_keeps (lumberLen : Z) (entries : list (string * list Z)) (acc : list Bin) :
  concat acc ++ namedCuts entries
  ⊆+ concat (foldl (λ bins entry,
                      if decide (entry.1 = "false") then bins
                      else bins ++ solveCuts (cutsOfPart entry.1 entry.2) lumberLen None)
                   acc entries).
Proof.
  revert acc. unfold namedCuts.
  induction entries as [|entry entries IH]; intros acc; csimpl.
  - by rewrite app_nil_r.
  - etrans; [|apply IH]. rewrite (assoc_L (++)). apply submseteq_skips_r.
    case_decide; [by rewrite app_nil_r|].
    rewrite concat_app. apply submseteq_skips_l.
    apply (solveCuts_keeps _ lumberLen None).
Qed.

Lemma solveParts_only (lumberLen : Z) (entries : list (string * list Z)) (x : Cut) :
  x ∈ concat (solveParts lumberLen entries) → x ∈ namedCuts entries.
Proof.
  intros Hx. apply elem_of_concat in Hx as (bin & Hx & Hbin).
  apply solveParts_bins in Hbin as [Hbin|(entry & He & Hne & Hbin)]; [by inv Hbin|].
  assert (x ∈ concat (solveCuts (cutsOfPart entry.1 entry.2) lumberLen None)) as Hin.
  { apply elem_of_concat. by exists bin. }
  apply solveCuts_only in Hin as [Hin|Hin]; [by inv Hin|].
  unfold namedCuts. apply elem_of_concat.
  exists (cutsOfPart entry.1 entry.2). split; [done|].
  apply list_elem_of_fmap. exists entry. by rewrite decide_False.
Qed.

Lemma namedCuts_without_false (entries : list (string * list Z)) :
  "false" ∉ entries.*1 →
  namedCuts entries = concat ((λ entry, cutsOfPart entry.1 entry.2) <$> entries).
Proof.
  unfold namedCuts. induction entries as [|entry entries IH]; csimpl; [done|].
  intros Hnot. apply not_elem_of_cons in Hnot as [Hne Hnot].
  rewrite decide_False by done. by rewrite IH.
Qed.

(** With each key once, the cuts of the inputs are the cuts of the named
    parts and the cuts under the key ["false"]. *)
Lemma cutsOfInputs_split (entries : list (string * list Z)) (misc : list Z) :
  NoDup entries.*1 →
  getProp entries "false" = Some misc →
  concat ((λ entry, cutsOfPart entry.1 entry.2) <$> entries)
  ≡ₚ namedCuts entries ++ cutsOfPart "false" misc.
Proof.
  induction entries as [|[k v] entries IH]; csimpl; [done|].
  intros Hnd Hget. apply NoDup_cons in Hnd as [Hk Hnd].
  unfold namedCuts. csimpl. fold (namedCuts entries).
  case_decide as Hkey.
  - injection Hget as ->. subst k. csimpl.
    rewrite namedCuts_without_false by done. apply Permutation_app_comm.
  - rewrite (IH Hnd Hget). by rewrite (assoc_L (++)).
Qed.

Lemma naiveSolve_flat (inputs : Inputs) :
  cuts inputs ≠ [] →
  naiveSolve inputs
  = Some (solveCuts (sortDesc (cutsOfInputs inputs)) (effectiveLumberLen inputs) None).
Proof.
  unfold naiveSolve, cutsOfInputs. destruct (cuts inputs) as [|entry rest]; [done|].
  intros _. csimpl. by rewrite foldl_concat.
Qed.

Lemma strategies_cuts (inputs : Inputs) :
  NoDup (cuts inputs).*1 →
  is_Some (getProp (cuts inputs) "false") →
  ∃ naive grouped,
    naiveSolve inputs = Some naive ∧
    groupedSolve inputs = Some grouped ∧
    cutsOfInputs inputs ⊆+ concat naive ∧
    cutsOfInputs inputs ⊆+ concat grouped ∧
    ∀ x : Cut, (x ∈ concat naive → x ∈ cutsOfInputs inputs) ∧
               (x ∈ concat grouped → x ∈ cutsOfInputs inputs).
Proof.
  intros Hnd [misc Hmisc].
  rewrite naiveSolve_flat by (by eapply getProp_nonempty).
  unfold groupedSolve. rewrite Hmisc. do 2 eexists.
  split; [done|]. split; [done|].
  pose proof (cutsOfInputs_split _ _ Hnd Hmisc) as Hsplit. fold (cutsOfInputs inputs) in Hsplit.
  assert (concat (mergeBins (effectiveLumberLen inputs)
                    (solveParts (effectiveLumberLen inputs) (cuts inputs)))
          ≡ₚ concat (solveParts (effectiveLumberLen inputs) (cuts inputs))) as Hmerge.
  { unfold mergeBins. by rewrite mergeLoop_concat, sortBinsDesc_Permutation. }
  split; [|split].
  - etrans; [|apply solveCuts_keeps]. simpl.
    apply Permutation_submseteq. by rewrite sortDesc_reverse, reverse_Permutation.
  - etrans; [|apply solveCuts_keeps]. simpl.
    rewrite Hsplit, Hmerge. apply submseteq_skips_r.
    apply (solveParts_keeps (effectiveLumberLen inputs) (cuts inputs) []).
  - intros x. split; intros Hx.
    + apply solveCuts_only in Hx as [Hx|Hx]; [by inv Hx|].
      by rewrite sortDesc_reverse, reverse_Permutation in Hx.
    + rewrite Hsplit. apply elem_of_app.
      apply solveCuts_only in Hx as [Hx|Hx]; [left | by right].
      simpl in Hx. rewrite Hmerge in Hx. by eapply solveParts_only.
Qed.

(** X7. Both strategies place the cuts of the inputs and nothing else: every
    cut of the inputs is in the bins returned, at least as often as it is
    asked for, and every cut in a bin returned is a cut of the inputs. *)
Theorem strategies_place_the_cuts_of_the_inputs (inputs : Inputs) :
  NoDup (cuts inputs).*1 →
  is_Some (getProp (cuts inputs) "false") →
  ∃ naive grouped,
    naiveSolve inputs = Some naive ∧
    groupedSolve inputs = Some grouped ∧
    cutsOfInputs inputs ⊆+ concat naive ∧
    cutsOfInputs inputs ⊆+ concat grouped ∧
    ∀ x : Cut, (x ∈ concat naive → x ∈ cutsOfInputs inputs) ∧
               (x ∈ concat grouped → x ∈ cutsOfInputs inputs).
Proof. apply strategies_cuts. Qed.

Lemma strategies_place_the_cuts_of_the_inputs_witness :
  ∃ naive grouped,
    naiveSolve scenarioInputs = Some naive ∧
    groupedSolve scenarioInputs = Some grouped ∧
    cutsOfInputs scenarioInputs ⊆+ concat naive ∧
    cutsOfInputs scenarioInputs ⊆+ concat grouped ∧
    ∀ x : Cut, (x ∈ concat naive → x ∈ cutsOfInputs scenarioInputs) ∧
               (x ∈ concat grouped → x ∈ cutsOfInputs scenarioInputs).
Proof.
  apply strategies_place_the_cuts_of_the_inputs.
  - by apply (bool_decide_unpack (NoDup _)).
  - by eexists.
Defined.

(** ** Empty bins *)

Lemma placeCut_nonempty (lumberLen : Z) (bins : list Bin) (c : Cut) :
  Forall (λ bin, bin ≠ []) bins → Forall (λ bin, bin ≠ []) (placeCut lumberLen bins c).
Proof.
  intros Hbins. unfold placeCut. destruct (filter _ _).
  - apply Forall_app. split; [done|]. by repeat constructor.
  - apply Forall_fmap. eapply Forall_impl; [exact Hbins|]. intros b Hb. simpl in *.
    case_decide; [|done]. by destruct b.
Qed.

Lemma foldl_placeCut_nonempty (lumberLen : Z) (cs : list Cut) (bins : list Bin) :
  Forall (λ bin, bin ≠ []) bins →
  Forall (λ bin, bin ≠ []) (foldl (placeCut lumberLen) bins cs).
Proof.
  revert bins. induction cs as [|c cs IH]; intros bins Hbins; simpl; [done|].
  by apply IH, placeCut_nonempty.
Qed.

(** The first cut, when it fits, goes into the empty bin the engine starts
    from. *)
Lemma placeCut_first (lumberLen : Z) (c : Cut) :
  value c ≤ lumberLen → placeCut lumberLen [[]] c = [[c]].
Proof.
  intros Hc. unfold placeCut, getBinRemainder, sumCutList, sumList. simpl.
  rewrite filter_cons_True by lia. simpl. unfold minOf. simpl. by rewrite decide_True.
Qed.

Lemma solveCuts_nonempty_new (cuts0 : list Cut) (lumberLen : Z) :
  cuts0 ≠ [] → Forall (λ c, value c ≤ lumberLen) cuts0 →
  Forall (λ bin, bin ≠ []) (solveCuts cuts0 lumberLen None).
Proof.
  intros Hne Hfit. unfold solveCuts.
  pose proof (sortCutsDesc_Permutation cuts0) as Hperm.
  rewrite <- Hperm in Hfit.
  destruct (sortCutsDesc cuts0) as [|c cs].
  { apply Permutation_nil in Hperm. done. }
  inv Hfit. simpl. rewrite placeCut_first by done.
  apply foldl_placeCut_nonempty. by repeat constructor.
Qed.

Lemma mergeScan_nonempty (lumberLen : Z) (bin : Bin) (i : nat) (bins : list Bin) (j : nat) :
  bin ≠ [] → Forall (λ b, b ≠ []) bins →
  Forall (λ b, b ≠ []) (mergeScan lumberLen bin i bins j).
Proof.
  funelim (mergeScan lumberLen bin i bins j); intros Hbin Hbins; [done| |by auto].
  apply Forall_delete, Forall_insert; [done|]. by destruct bin.
Qed.

Lemma mergeLoop_nonempty (lumberLen : Z) (bins : list Bin) (i : nat) :
  Forall (λ b, b ≠ []) bins → Forall (λ b, b ≠ []) (mergeLoop lumberLen bins i).
Proof.
  funelim (mergeLoop lumberLen bins i); intros Hbins; [|done].
  match goal with IH : _ → Forall _ (mergeLoop _ _ _) |- _ => apply IH end.
  apply mergeScan_nonempty; [|done].
  rewrite Forall_forall in Hbins. apply Hbins, list_elem_of_lookup_total_2. lia.
Qed.

Lemma solveParts_nonempty (lumberLen : Z) (entries : list (string * list Z)) :
  Forall (λ entry, Forall (λ v, v ≤ lumberLen) entry.2) entries →
  Forall (λ entry, entry.1 ≠ "false" → entry.2 ≠ []) entries →
  Forall (λ bin, bin ≠ []) (solveParts lumberLen entries).
Proof.
  intros Hfit Hfull. apply Forall_forall. intros bin Hbin.
  apply solveParts_bins in Hbin as [Hbin|(entry & He & Hne & Hbin)]; [by inv Hbin|].
  rewrite Forall_forall in Hfit, Hfull.
  assert (Forall (λ b, b ≠ []) (solveCuts (cutsOfPart entry.1 entry.2) lumberLen None)) as Hall.
  { apply solveCuts_nonempty_new.
    - specialize (Hfull _ He Hne). unfold cutsOfPart. by destruct (entry.2).
    - apply Forall_fmap. eapply Forall_impl; [exact (Hfit _ He)|]. done. }
  rewrite Forall_forall in Hall. by apply Hall.
Qed.

(** X8. No empty board: when every cut fits, every named part has a cut and
    there is a cut at all, neither strategy returns an empty bin. *)
Theorem no_empty_bin (inputs : Inputs) :
  is_Some (getProp (cuts inputs) "false") →
  Forall (λ entry, Forall (λ v, v ≤ effectiveLumberLen inputs) entry.2) (cuts inputs) →
  Forall (λ entry, entry.1 ≠ "false" → entry.2 ≠ []) (cuts inputs) →
  cutsOfInputs inputs ≠ [] →
  ∃ naive grouped,
    naiveSolve inputs = Some naive ∧
    groupedSolve inputs = Some grouped ∧
    Forall (λ bin, bin ≠ []) naive ∧
    Forall (λ bin, bin ≠ []) grouped.
Proof.
  intros [misc Hmisc] Hfit Hfull Hsome.
  rewrite naiveSolve_flat by (eapply getProp_nonempty; by eexists).
  unfold groupedSolve. rewrite Hmisc. do 2 eexists.
  split; [done|]. split; [done|]. split.
  - apply solveCuts_nonempty_new.
    + rewrite sortDesc_reverse. intros Hnil.
      apply (f_equal reverse) in Hnil. by rewrite reverse_involutive in Hnil.
    + rewrite sortDesc_reverse, Forall_reverse. unfold cutsOfInputs.
      apply Forall_forall. intros c Hc. apply elem_of_concat in Hc as (l & Hc & Hl).
      apply list_elem_of_fmap in Hl as (entry & -> & He).
      apply list_elem_of_fmap in Hc as (v & -> & Hv). simpl.
      rewrite Forall_forall in Hfit. specialize (Hfit _ He).
      rewrite Forall_forall in Hfit. by apply Hfit.
  - unfold solveCuts. simpl. apply foldl_placeCut_nonempty.
    unfold mergeBins. apply mergeLoop_nonempty.
    rewrite sortBinsDesc_Permutation. by apply solveParts_nonempty.
Qed.

Lemma no_empty_bin_witness :
  ∃ naive grouped,
    naiveSolve scenarioInputs = Some naive ∧
    groupedSolve scenarioInputs = Some grouped ∧
    Forall (λ bin, bin ≠ []) naive ∧
    Forall (λ bin, bin ≠ []) grouped.
Proof.
  apply no_empty_bin.
  - by eexists.
  - unfold scenarioInputs. simpl.
    repeat (apply Forall_cons_2; [repeat (apply Forall_cons_2; [lia|]);
                                  apply Forall_nil_2|]).
    apply Forall_nil_2.
  - unfold scenarioInputs. simpl.
    repeat (apply Forall_cons_2; [simpl; discriminate|]). apply Forall_nil_2.
  - discriminate.
Defined.

(** * Properties of the form validation *)

(** ** Texts *)

Lemma Form_split_nonempty (sep : Ascii.ascii) (s : string) : Form.split sep s ≠ [].
Proof.
  induction s as [|c s IH]; simpl; [done|].
  case_decide; [done|]. by destruct (Form.split sep s).
Qed.

Lemma Form_tokens_nonempty (text : string) : Form.tokens text ≠ [].
Proof. apply Form_split_nonempty. Qed.

(** ** Objects *)

Lemma Form_setProp_keys (obj : list (string * list Z)) (key : string) (v : list Z) :
  (Form.setProp obj key v).*1
  = if decide (key ∈ obj.*1) then obj.*1 else obj.*1 ++ [key].
Proof.
  induction obj as [|[k w] obj IH]; csimpl.
  - done.
  - destruct (decide (k = key)) as [->|Hk]; csimpl.
    + rewrite decide_True; [done | left].
    + rewrite IH. destruct (decide (key ∈ obj.*1)) as [Hin|Hin].
      * rewrite decide_True; [done | by right].
      * rewrite decide_False; [done|]. intros Hin'. inv Hin'; done.
Qed.

Lemma Form_setProp_Forall (P : string * list Z → Prop)
    (obj : list (string * list Z)) (key : string) (v : list Z) :
  Forall P obj → P (key, v) → Forall P (Form.setProp obj key v).
Proof.
  intros Hobj Hnew. induction Hobj as [|[k w] obj Hk Hobj IH]; simpl.
  - by repeat constructor.
  - case_decide; [subst|]; by constructor.
Qed.

Lemma Form_setProp_NoDup (obj : list (string * list Z)) (key : string) (v : list Z) :
  NoDup obj.*1 → NoDup (Form.setProp obj key v).*1.
Proof.
  intros Hnd. rewrite Form_setProp_keys. case_decide as Hin; [done|].
  apply NoDup_app. split; [done|]. split; [|apply NoDup_singleton].
  intros x Hx Hx'. apply list_elem_of_singleton in Hx'. by subst.
Qed.

Lemma getProp_is_Some (obj : list (string * list Z)) (key : string) :
  is_Some (getProp obj key) ↔ key ∈ obj.*1.
Proof.
  induction obj as [|[k w] obj IH]; csimpl.
  - split; [by intros [? ?] | by intros Hin; inv Hin].
  - case_decide as Hk.
    + subst. split; [intros _; left | by eexists].
    + rewrite IH. split; [by right | intros Hin; by inv Hin].
Qed.

(** The values of an object, all lists together. *)
Lemma Form_setProp_values_new (obj : list (string * list Z)) (key : string) (v : list Z) :
  key ∉ obj.*1 → concat (Form.setProp obj key v).*2 = concat obj.*2 ++ v.
Proof.
  induction obj as [|[k w] obj IH]; csimpl; intros Hnot.
  - by rewrite app_nil_r.
  - apply not_elem_of_cons in Hnot as [Hne Hnot].
    rewrite decide_False by done. csimpl. rewrite IH by done.
    by rewrite (assoc_L (++)).
Qed.

Lemma Form_setProp_values_more (obj : list (string * list Z)) (key : string)
    (old more : list Z) :
  getProp obj key = Some old →
  concat (Form.setProp obj key (old ++ more)).*2 ≡ₚ concat obj.*2 ++ more.
Proof.
  induction obj as [|[k w] obj IH]; csimpl; [done|].
  case_decide as Hk; intros Hget.
  - injection Hget as ->. csimpl. solve_Permutation.
  - csimpl. rewrite (IH Hget). by rewrite (assoc_L (++)).
Qed.

(** ** The checks of [parseCutsSublist] and [parseCuts] *)

Lemma maxOf_ge (v : Z) (vs : list Z) : Forall (λ x, x ≤ foldl Z.max v vs) (v :: vs).
Proof.
  revert v. induction vs as [|x vs IH] using rev_ind; intros v.
  - simpl. constructor; [lia | constructor].
  - rewrite foldl_snoc. specialize (IH v).
    change (v :: vs ++ [x]) with ((v :: vs) ++ [x]).
    apply Forall_app; split.
    + eapply Forall_impl; [exact IH|]. simpl. lia.
    + apply Forall_cons_2; [lia | apply Forall_nil_2].
Qed.

Lemma Form_exceeds_false (effectiveLumberLen : Z) (subl : list Z) :
  Form.exceeds effectiveLumberLen subl = false →
  Forall (λ x, x ≤ effectiveLumberLen) subl.
Proof.
  destruct subl as [|v vs]; simpl; [intros _; apply Forall_nil_2|].
  intros Hmax. apply bool_decide_eq_false in Hmax.
  eapply Forall_impl; [apply maxOf_ge|]. simpl. lia.
Qed.

Lemma Form_checkCuts_spec (sublist : list (option Z)) (errors : list string) :
  match Form.checkCuts sublist errors with
  | (Some vs, errors') =>
      errors' = errors ∧ sublist = Some <$> vs ∧ Forall (λ v, 0 < v) vs
  | (None, errors') => errors' = errors ++ ["All cuts should be positive numbers"]
  end.
Proof.
  induction sublist as [|[f|] rest IH]; simpl.
  - split; [done|]. split; [done | apply Forall_nil_2].
  - case_decide as Hf; [done|].
    destruct (Form.checkCuts rest errors) as [[vs|] errors']; [|done].
    destruct IH as (-> & -> & Hpos). split; [done|]. split; [done|].
    apply Forall_cons_2; [lia | done].
  - done.
Qed.

Section form_facts.
Context (parseInt parseFloat : string → option Z) (trim : string → string).
Context (inherited : string → bool).

Lemma Form_parseCutsSublist_spec (text : string) (errors : list string) :
  match Form.parseCutsSublist parseFloat trim text errors with
  | (Some vs, errors') =>
      errors' = errors ∧ vs ≠ [] ∧ Forall (λ v, 0 < v) vs ∧
      (λ s, parseFloat (trim s)) <$> Form.tokens text = Some <$> vs
  | (None, errors') => errors' = errors ++ ["All cuts should be positive numbers"]
  end.
Proof.
  unfold Form.parseCutsSublist. fold (Form.tokens text).
  pose proof (Form_tokens_nonempty text) as Hne.
  rewrite decide_False by (by destruct (Form.tokens text)).
  pose proof (Form_checkCuts_spec ((λ s, parseFloat (trim s)) <$> Form.tokens text) errors)
    as Hspec.
  destruct (Form.checkCuts _ errors) as [[vs|] errors']; [|done].
  destruct Hspec as (-> & Heq & Hpos). split; [done|]. split; [|done].
  intros ->. destruct (Form.tokens text); done.
Qed.

Lemma Form_padded_tokens (cutWidth : Z) (toks : list string) (vs : list Z) :
  (λ s, parseFloat (trim s)) <$> toks = Some <$> vs →
  Form.paddedLength parseFloat trim cutWidth <$> toks = (λ v, v + cutWidth) <$> vs ∧
  Forall (λ s, ∃ raw, parseFloat (trim s) = Some raw ∧ raw ∈ vs) toks.
Proof.
  revert vs. induction toks as [|s toks IH]; intros [|v vs]; csimpl; try done.
  intros [= Hs Hrest]. destruct (IH _ Hrest) as [Heq Hall]. split.
  - unfold Form.paddedLength at 1. rewrite Hs. simpl. by rewrite Heq.
  - apply Forall_cons_2; [exists v; split; [done | left]|].
    eapply Forall_impl; [exact Hall|]. intros s' (raw & ? & ?).
    exists raw. split; [done | by right].
Qed.

Lemma Form_padded_in_range (cutWidth effectiveLumberLen : Z) (vs : list Z) :
  Forall (λ v, 0 < v) vs →
  Form.exceeds effectiveLumberLen ((λ v, v + cutWidth) <$> vs) = false →
  Forall (λ x, cutWidth < x ≤ effectiveLumberLen) ((λ v, v + cutWidth) <$> vs).
Proof.
  intros Hpos Hmax. apply Form_exceeds_false in Hmax.
  rewrite Forall_forall in Hpos. rewrite Forall_forall in Hmax.
  apply Forall_forall. intros x Hx. specialize (Hmax _ Hx).
  apply list_elem_of_fmap in Hx as (v & -> & Hv). specialize (Hpos _ Hv). lia.
Qed.

Lemma Form_accepted_new_part (cutWidth effectiveLumberLen : Z)
    (obj : list (string * list Z)) (k : string) (subl : list Z) :
  Form.accepted inherited cutWidth effectiveLumberLen obj →
  Form.hasKey inherited k obj = false →
  subl ≠ [] →
  Forall (λ x, cutWidth < x ≤ effectiveLumberLen) subl →
  Form.accepted inherited cutWidth effectiveLumberLen (Form.setProp obj k subl) ∧
  concat (Form.setProp obj k subl).*2 = concat obj.*2 ++ subl.
Proof.
  intros (Hnd & Hfalse & Hrange & Hnamed) Hhas Hne Hsubl.
  unfold Form.hasKey in Hhas. apply orb_false_iff in Hhas as [Hown Hinh].
  apply bool_decide_eq_false in Hown.
  split; [|by apply Form_setProp_values_new].
  split; [by apply Form_setProp_NoDup|]. split; [|split].
  - rewrite Form_setProp_keys, decide_False by done. apply elem_of_app. by left.
  - by apply Form_setProp_Forall.
  - by apply Form_setProp_Forall.
Qed.

Lemma Form_accepted_more_misc (cutWidth effectiveLumberLen : Z)
    (obj : list (string * list Z)) (subl : list Z) :
  Form.accepted inherited cutWidth effectiveLumberLen obj →
  Forall (λ x, cutWidth < x ≤ effectiveLumberLen) subl →
  Form.accepted inherited cutWidth effectiveLumberLen
    (Form.setProp obj "false" (default [] (getProp obj "false") ++ subl)) ∧
  concat (Form.setProp obj "false" (default [] (getProp obj "false") ++ subl)).*2
  ≡ₚ concat obj.*2 ++ subl.
Proof.
  intros (Hnd & Hfalse & Hrange & Hnamed) Hsubl.
  destruct (proj2 (getProp_is_Some obj "false") Hfalse) as [old Hold].
  rewrite Hold. simpl.
  split; [|by apply Form_setProp_values_more].
  split; [by apply Form_setProp_NoDup|]. split; [|split].
  - by rewrite Form_setProp_keys, decide_True.
  - apply Form_setProp_Forall; [done|]. simpl. apply Forall_app. split; [|done].
    apply getProp_elem in Hold. rewrite Forall_forall in Hrange.
    apply (Hrange _ Hold).
  - by apply Form_setProp_Forall.
Qed.

(** What the loop of [parseCuts] does with the lines, from an object that is
    in order: it ends with an object in order that holds the former lengths
    and the padded lengths of the lines, and no message; or with no object
    and one message. *)
Lemma Form_parseLines_spec (cutWidth effectiveLumberLen : Z) (lines : list string)
    (obj : list (string * list Z)) (errors : list string) :
  0 < cutWidth →
  Form.accepted inherited cutWidth effectiveLumberLen obj →
  match Form.parseLines parseFloat trim inherited cutWidth effectiveLumberLen
          lines obj errors with
  | (Some out, errors') =>
      errors' = errors ∧
      Form.accepted inherited cutWidth effectiveLumberLen out ∧
      concat out.*2
      ≡ₚ concat obj.*2
         ++ (Form.paddedLength parseFloat trim cutWidth
               <$> concat (Form.tokensOfLine <$> lines)) ∧
      Forall (λ s, ∃ raw, parseFloat (trim s) = Some raw ∧ 0 < raw)
             (concat (Form.tokensOfLine <$> lines))
  | (None, errors') =>
      ∃ msg, errors' = errors ++ [msg] ∧ msg ≠ "A part cannot have no values"
  end.
Proof.
  intros Hwidth. revert obj errors.
  induction lines as [|line lines IH]; intros obj errors Hacc; csimpl.
  { split; [done|]. split; [done|]. split; [by rewrite app_nil_r | apply Forall_nil_2]. }
  pose proof (Form_parseCutsSublist_spec (Form.valOf line) errors) as Hsub.
  assert (∀ (obj' : list (string * list Z)) (vs : list Z),
            Form.accepted inherited cutWidth effectiveLumberLen obj' →
            concat obj'.*2 ≡ₚ concat obj.*2 ++ ((λ v, v + cutWidth) <$> vs) →
            Forall (λ v, 0 < v) vs →
            (λ s, parseFloat (trim s)) <$> Form.tokens (Form.valOf line) = Some <$> vs →
            match Form.parseLines parseFloat trim inherited cutWidth effectiveLumberLen
                    lines obj' errors with
            | (Some out, errors') =>
                errors' = errors ∧
                Form.accepted inherited cutWidth effectiveLumberLen out ∧
                concat out.*2
                ≡ₚ concat obj.*2
                   ++ (Form.paddedLength parseFloat trim cutWidth
                         <$> (Form.tokensOfLine line
                              ++ concat (Form.tokensOfLine <$> lines))) ∧
                Forall (λ s, ∃ raw, parseFloat (trim s) = Some raw ∧ 0 < raw)
                       (Form.tokensOfLine line ++ concat (Form.tokensOfLine <$> lines))
            | (None, errors') =>
                ∃ msg, errors' = errors ++ [msg] ∧ msg ≠ "A part cannot have no values"
            end) as Hrest.
  { intros obj' vs Hacc' Hvals Hpos Htoks. specialize (IH obj' errors Hacc').
    destruct (Form.parseLines _ _ _ _ _ lines obj' errors) as [[out|] errors']; [|done].
    destruct IH as (-> & Hout & Hperm & Hall).
    destruct (Form_padded_tokens cutWidth _ _ Htoks) as [Hpad Hraw].
    split; [done|]. split; [done|]. split.
    - rewrite Hperm, Hvals, fmap_app. unfold Form.tokensOfLine at 2.
      rewrite Hpad. by rewrite (assoc_L (++)).
    - apply Forall_app. split; [|done]. unfold Form.tokensOfLine.
      eapply Forall_impl; [exact Hraw|]. intros s (raw & Hs & Hin).
      exists raw. split; [done|]. rewrite Forall_forall in Hpos. by apply Hpos. }
  destruct (Form.keyOf line) as [k|].
  - destruct (Form.hasKey inherited k obj) eqn:Hhas.
    { eexists. split; [done|]. simpl. discriminate. }
    destruct (Form.parseCutsSublist parseFloat trim (Form.valOf line) errors)
      as [[vs|] errors1].
    + destruct Hsub as (-> & Hne & Hpos & Htoks).
      destruct (Form.exceeds effectiveLumberLen ((λ v, v + cutWidth) <$> vs)) eqn:Hmax.
      { eexists. split; [done|]. discriminate. }
      destruct (Form_accepted_new_part cutWidth effectiveLumberLen obj k
                  ((λ v, v + cutWidth) <$> vs) Hacc Hhas) as [Hacc' Hvals].
      { by destruct vs. }
      { by apply Form_padded_in_range. }
      apply (Hrest _ vs); [done | by rewrite Hvals | done..].
    + eexists. split; [exact Hsub|]. discriminate.
  - destruct (Form.parseCutsSublist parseFloat trim (Form.valOf line) errors)
      as [[vs|] errors1].
    + destruct Hsub as (-> & Hne & Hpos & Htoks).
      destruct (Form.exceeds effectiveLumberLen ((λ v, v + cutWidth) <$> vs)) eqn:Hmax.
      { eexists. split; [done|]. discriminate. }
      destruct (Form_accepted_more_misc cutWidth effectiveLumberLen obj
                  ((λ v, v + cutWidth) <$> vs) Hacc) as [Hacc' Hvals].
      { by apply Form_padded_in_range. }
      apply (Hrest _ vs); done.
    + eexists. split; [exact Hsub|]. discriminate.
Qed.

Lemma Form_parseCuts_spec (cutWidth effectiveLumberLen : Z) (text : string)
    (errors : list string) :
  0 < cutWidth →
  match Form.parseCuts parseFloat trim inherited cutWidth effectiveLumberLen
          text errors with
  | (Some out, errors') =>
      errors' = errors ∧
      Form.accepted inherited cutWidth effectiveLumberLen out ∧
      concat out.*2
      ≡ₚ Form.paddedLength parseFloat trim cutWidth <$> Form.tokensOf text ∧
      Forall (λ s, ∃ raw, parseFloat (trim s) = Some raw ∧ 0 < raw)
             (Form.tokensOf text)
  | (None, errors') =>
      ∃ msg, errors' = errors ++ [msg] ∧ msg ≠ "A part cannot have no values"
  end.
Proof.
  intros Hwidth. unfold Form.parseCuts, Form.tokensOf.
  apply (Form_parseLines_spec cutWidth effectiveLumberLen _ [("false", [])] errors Hwidth).
  split; [apply NoDup_singleton|]. split; [left|].
  split.
  - apply Forall_cons_2; [apply Forall_nil_2 | apply Forall_nil_2].
  - apply Forall_cons_2; [done | apply Forall_nil_2].
Qed.

(** Every way [getAndValidateInputs] ends. *)
Lemma Form_getAndValidateInputs_cases (page : Form.fields) :
  match Form.getAndValidateInputs parseInt parseFloat trim inherited page with
  | (Form.RObject v, errors) =>
      errors = [] ∧
      (∃ feet, 0 < feet ∧ Form.lumberLen v = feet * 12) ∧
      0 < Form.cutWidth v ≤ Form.lumberMargin v ∧
      Form.effectiveLumberLen v
      = Form.lumberLen v - (Form.lumberMargin v - Form.cutWidth v) ∧
      Form.accepted inherited (Form.cutWidth v) (Form.effectiveLumberLen v) (Form.cuts v) ∧
      concat (Form.cuts v).*2
      ≡ₚ Form.paddedLength parseFloat trim (Form.cutWidth v)
           <$> Form.tokensOf (Form.input_cuts page) ∧
      Forall (λ s, ∃ raw, parseFloat (trim s) = Some raw ∧ 0 < raw)
             (Form.tokensOf (Form.input_cuts page))
  | (Form.RFalse, errors) =>
      ∃ msg, errors = [msg] ∧ msg ≠ "A part cannot have no values"
  | (Form.RUndefined, _) => False
  end.
Proof.
  unfold Form.getAndValidateInputs.
  destruct (if Form.includes _ _ then None else parseInt _) as [len|];
    [|eexists; split; [done | discriminate]].
  destruct (parseFloat (Form.input_lumber_margin page)) as [margin|];
    [|case_decide; eexists; (split; [done | discriminate])].
  destruct (parseFloat (Form.input_cut_width page)) as [width|];
    [|repeat case_decide; eexists; (split; [done | discriminate])].
  repeat case_decide; try (eexists; split; [done | discriminate]).
  pose proof (Form_parseCuts_spec width (len * 12 - (margin - width))
                (Form.input_cuts page) []) as Hspec.
  destruct (Form.parseCuts _ _ _ _ _ _ []) as [[out|] errors'].
  - destruct Hspec as (-> & Hacc & Hperm & Hall); [lia|]. simpl.
    split; [done|]. split; [exists len; split; [lia | done]|].
    split; [lia|]. done.
  - destruct Hspec as (msg & -> & Hmsg); [lia|]. by exists msg.
Qed.

End form_facts.

(** ** The object [parseCuts] builds *)

Section form_shape.
Context (parseFloat : string → option Z) (trim : string → string).
Context (inherited : string → bool).

Lemma Form_setProp_new (obj : list (string * list Z)) (key : string) (v : list Z) :
  key ∉ obj.*1 → Form.setProp obj key v = obj ++ [(key, v)].
Proof.
  induction obj as [|[k w] obj IH]; csimpl; intros Hnot; [done|].
  apply not_elem_of_cons in Hnot as [Hne Hnot].
  rewrite decide_False by done. by rewrite IH.
Qed.

Lemma Form_parseLines_shape (cutWidth effectiveLumberLen : Z) (lines : list string)
    (misc : list Z) (named : list (string * list Z)) (errors : list string) :
  "false" ∉ named.*1 →
  match Form.parseLines parseFloat trim inherited cutWidth effectiveLumberLen
          lines (("false", misc) :: named) errors with
  | (Some out, _) =>
      out = ("false", misc ++ Form.miscOf parseFloat trim cutWidth lines)
            :: named ++ Form.partsOf parseFloat trim cutWidth lines
  | (None, _) => True
  end.
Proof.
  revert misc named errors.
  induction lines as [|line lines IH]; intros misc named errors Hnamed.
  { simpl. unfold Form.miscOf, Form.partsOf. simpl. by rewrite !app_nil_r. }
  cbn [Form.parseLines].
  pose proof (Form_parseCutsSublist_spec parseFloat trim (Form.valOf line) errors) as Hsub.
  unfold Form.miscOf, Form.partsOf. csimpl.
  fold (Form.miscOf parseFloat trim cutWidth lines).
  fold (Form.partsOf parseFloat trim cutWidth lines).
  destruct (Form.keyOf line) as [k|]; csimpl.
  - destruct (Form.hasKey inherited k (("false", misc) :: named)) eqn:Hhas; [done|].
    destruct (Form.parseCutsSublist parseFloat trim (Form.valOf line) errors)
      as [[vs|] errors1]; [|done].
    destruct Hsub as (-> & _ & _ & Htoks).
    destruct (Form.exceeds _ _); [done|].
    unfold Form.hasKey in Hhas. apply orb_false_iff in Hhas as [Hown _].
    apply bool_decide_eq_false in Hown. csimpl in Hown.
    apply not_elem_of_cons in Hown as [Hk Hown].
    rewrite decide_False by done. rewrite Form_setProp_new by done.
    destruct (Form_padded_tokens parseFloat trim cutWidth _ _ Htoks) as [Hpad _].
    specialize (IH misc (named ++ [(k, (λ v, v + cutWidth) <$> vs)]) errors).
    destruct (Form.parseLines _ _ _ _ _ lines _ errors) as [[out|] errors']; [|done].
    rewrite IH.
    + unfold Form.paddedLine, Form.tokensOfLine. rewrite Hpad.
      by rewrite <- (assoc_L (++)).
    + rewrite fmap_app. intros Hin. apply elem_of_app in Hin as [Hin|Hin]; [done|].
      apply list_elem_of_singleton in Hin. done.
  - destruct (Form.parseCutsSublist parseFloat trim (Form.valOf line) errors)
      as [[vs|] errors1]; [|done].
    destruct Hsub as (-> & _ & _ & Htoks).
    destruct (Form.exceeds _ _); [done|].
    destruct (Form_padded_tokens parseFloat trim cutWidth _ _ Htoks) as [Hpad _].
    specialize (IH (misc ++ ((λ v, v + cutWidth) <$> vs)) named errors Hnamed).
    destruct (Form.parseLines _ _ _ _ _ lines _ errors) as [[out|] errors']; [|done].
    rewrite IH. unfold Form.paddedLine, Form.tokensOfLine. rewrite Hpad.
    by rewrite <- (assoc_L (++)).
Qed.

End form_shape.

(** ** What the validation guarantees *)

Section form_properties.
Context (parseInt parseFloat : string → option Z) (trim : string → string).
Context (inherited : string → bool).

(** X11. [getAndValidateInputs] ends in one of two ways: it returns the
    inputs and shows no message, or it returns [false] and shows exactly one
    message.  It never returns [undefined], which is the one value the guard
    of the click handler looks for. *)
Theorem validation_reports_one_error (page : Form.fields) :
  ((∃ v, Form.getAndValidateInputs parseInt parseFloat trim inherited page
         = (Form.RObject v, [])) ∨
   (∃ msg, Form.getAndValidateInputs parseInt parseFloat trim inherited page
           = (Form.RFalse, [msg]))) ∧
  Form.stopsAtGuard
    (Form.getAndValidateInputs parseInt parseFloat trim inherited page).1 = false.
Proof.
  pose proof (Form_getAndValidateInputs_cases parseInt parseFloat trim inherited page)
    as Hcases.
  destruct (Form.getAndValidateInputs _ _ _ _ page) as [[| |v] errors]; [done| |].
  - destruct Hcases as (msg & -> & _). split; [right; by exists msg | done].
  - destruct Hcases as (-> & _). split; [left; by exists v | done].
Qed.

(** X12. The message "A part cannot have no values" is never shown: [split]
    never returns an empty array, so the test that guards it never holds. *)
Theorem no_values_message_is_never_shown (page : Form.fields) :
  "A part cannot have no values"
  ∉ (Form.getAndValidateInputs parseInt parseFloat trim inherited page).2.
Proof.
  pose proof (Form_getAndValidateInputs_cases parseInt parseFloat trim inherited page)
    as Hcases.
  destruct (Form.getAndValidateInputs _ _ _ _ page) as [[| |v] errors]; [done| |]; simpl.
  - destruct Hcases as (msg & -> & Hmsg). intros Hin.
    apply list_elem_of_singleton in Hin. done.
  - destruct Hcases as (-> & _). intros Hin. by inv Hin.
Qed.

(** X13. Every number typed in the field of cuts becomes one cut, padded by
    the blade width, and the cuts are nothing else: the lengths of the inputs
    returned are the padded readings of the texts between the commas of all
    the lines, each as often as typed, and each reading is a positive
    number. *)
Theorem typed_numbers_become_cuts
    (page : Form.fields) (v : Form.validated) (errors : list string) :
  Form.getAndValidateInputs parseInt parseFloat trim inherited page
  = (Form.RObject v, errors) →
  concat (Form.cuts v).*2
  ≡ₚ Form.paddedLength parseFloat trim (Form.cutWidth v)
       <$> Form.tokensOf (Form.input_cuts page) ∧
  Forall (λ s, ∃ raw, parseFloat (trim s) = Some raw ∧ 0 < raw ∧
                      Form.paddedLength parseFloat trim (Form.cutWidth v) s
                      = raw + Form.cutWidth v)
         (Form.tokensOf (Form.input_cuts page)).
Proof.
  intros Hrun.
  pose proof (Form_getAndValidateInputs_cases parseInt parseFloat trim inherited page)
    as Hcases.
  rewrite Hrun in Hcases.
  destruct Hcases as (_ & _ & _ & _ & _ & Hperm & Hall).
  split; [done|]. eapply Forall_impl; [exact Hall|].
  intros s (raw & Hs & Hpos). exists raw. split; [done|]. split; [done|].
  unfold Form.paddedLength. by rewrite Hs.
Qed.

(** X16. The inputs returned hold the lines as typed: the key ["false"] holds
    the padded lengths of the lines without a part name, in the order typed,
    and each line with a part name gives one key, which holds the padded
    lengths of that line (the entries stand in the order in which the keys
    were set).  The part names are pairwise different, none is ["false"] and
    none is an inherited name: a second use of a name, and any use of such a
    name, is refused. *)
Theorem accepted_cuts_are_the_lines_typed
    (page : Form.fields) (v : Form.validated) (errors : list string) :
  Form.getAndValidateInputs parseInt parseFloat trim inherited page
  = (Form.RObject v, errors) →
  Form.cuts v
  = ("false", Form.miscOf parseFloat trim (Form.cutWidth v)
                (Form.linesOf (Form.input_cuts page)))
    :: Form.partsOf parseFloat trim (Form.cutWidth v)
         (Form.linesOf (Form.input_cuts page)) ∧
  NoDup (Form.partsOf parseFloat trim (Form.cutWidth v)
           (Form.linesOf (Form.input_cuts page))).*1 ∧
  Forall (λ k, k ≠ "false" ∧ inherited k = false)
         (Form.partsOf parseFloat trim (Form.cutWidth v)
            (Form.linesOf (Form.input_cuts page))).*1.
Proof.
  intros Hrun.
  pose proof (Form_getAndValidateInputs_cases parseInt parseFloat trim inherited page)
    as Hcases.
  rewrite Hrun in Hcases.
  destruct Hcases as (_ & _ & _ & _ & (Hnd & _ & _ & Hnamed) & _).
  assert (Form.cuts v
          = ("false", Form.miscOf parseFloat trim (Form.cutWidth v)
                        (Form.linesOf (Form.input_cuts page)))
            :: Form.partsOf parseFloat trim (Form.cutWidth v)
                 (Form.linesOf (Form.input_cuts page))) as Hshape.
  { revert Hrun. unfold Form.getAndValidateInputs, Form.parseCuts.
    destruct (if Form.includes _ _ then None else parseInt _) as [len|]; [|done].
    destruct (parseFloat (Form.input_lumber_margin page)) as [margin|];
      [|by case_decide].
    destruct (parseFloat (Form.input_cut_width page)) as [width|];
      [|by repeat case_decide].
    repeat case_decide; try done.
    pose proof (Form_parseLines_shape parseFloat trim inherited width
                  (len * 12 - (margin - width))
                  (Form.split Form.newline (Form.input_cuts page)) [] [] []) as Hshape.
    destruct (Form.parseLines _ _ _ _ _ _ _ []) as [[out|] errors']; [|done].
    intros [= <- _]. simpl. apply Hshape. by intros Hin; inv Hin. }
  split; [done|]. rewrite Hshape in Hnd, Hnamed. csimpl in Hnd.
  apply NoDup_cons in Hnd as [Hfalse Hnd]. split; [done|].
  inv Hnamed. apply Forall_fmap. apply Forall_forall. intros entry Hentry. simpl.
  split.
  - intros Heq. apply Hfalse. rewrite <- Heq. by apply list_elem_of_fmap_2.
  - match goal with H : Forall _ (Form.partsOf _ _ _ _) |- _ =>
      rewrite Forall_forall in H; specialize (H _ Hentry) end.
    match goal with H : entry.1 ≠ "false" → _ |- _ => apply H end.
    intros Heq. apply Hfalse. rewrite <- Heq. by apply list_elem_of_fmap_2.
Qed.

End form_properties.

(** ** The form at a concrete page *)

Lemma demoPage_accepted :
  Form.getAndValidateInputs readNumber readNumber (λ s, s) (λ _, false) demoPage
  = (Form.RObject demoInputs, []).
Proof. reflexivity. Qed.

Lemma typed_numbers_become_cuts_witness :
  concat (Form.cuts demoInputs).*2
  ≡ₚ Form.paddedLength readNumber (λ s, s) (Form.cutWidth demoInputs)
       <$> Form.tokensOf (Form.input_cuts demoPage) ∧
  Forall (λ s, ∃ raw, readNumber s = Some raw ∧ 0 < raw ∧
                      Form.paddedLength readNumber (λ s, s) (Form.cutWidth demoInputs) s
                      = raw + Form.cutWidth demoInputs)
         (Form.tokensOf (Form.input_cuts demoPage)).
Proof.
  apply (typed_numbers_become_cuts readNumber readNumber (λ s, s)
           (λ _, false) demoPage demoInputs []).
  reflexivity.
Defined.

Lemma accepted_cuts_are_the_lines_typed_witness :
  Form.cuts demoInputs
  = ("false", Form.miscOf readNumber (λ s, s) (Form.cutWidth demoInputs)
                (Form.linesOf (Form.input_cuts demoPage)))
    :: Form.partsOf readNumber (λ s, s) (Form.cutWidth demoInputs)
         (Form.linesOf (Form.input_cuts demoPage)) ∧
  NoDup (Form.partsOf readNumber (λ s, s) (Form.cutWidth demoInputs)
           (Form.linesOf (Form.input_cuts demoPage))).*1 ∧
  Forall (λ k, k ≠ "false" ∧ (λ _ : string, false) k = false)
         (Form.partsOf readNumber (λ s, s) (Form.cutWidth demoInputs)
            (Form.linesOf (Form.input_cuts demoPage))).*1.
Proof.
  apply (accepted_cuts_are_the_lines_typed readNumber readNumber (λ s, s)
           (λ _, false) demoPage demoInputs []).
  reflexivity.
Defined.
